(** * Activity search service: search engine, filter manager and roster API

    A shallow embedding of [src/search_engine.py], [src/filters.py] and
    [src/app.py], followed by the properties proved about them.

    Conventions of the embedding.
    - A Python [str] is a [string]; a character is read as the code point
      of the same number (U+0000 to U+00FF).
    - A Python [dict] with string keys whose order is never observed is a
      [gmap string _]; a [dict] that is iterated is an insertion-ordered
      association list.
    - A Python [set] of hashable values is a [gset key].
    - A call that may raise returns an [option] ([None]: an exception left
      the function) or, where the exception is part of the contract, a sum.
    - Methods that mutate [self] take the state and return the new one. *)

From Stdlib Require Import ZArith List Ascii String Bool Lia Permutation.
From Stdlib Require Import Sorted Floats.
From stdpp Require Import base option list sorting gmap strings.

#[local] Set Warnings "-clear-no-such-hyp".

Local Open Scope Z_scope.

(** ** Python primitives *)

Module Py.

(** *** Characters and strings *)

(** [str.lower] on one code point below U+0100: the upper-case letters
    are A..Z, and U+00C0..U+00DE without the multiplication sign U+00D7;
    each maps to the code point 32 above it. *)
Definition is_upper (c : ascii) : bool :=
  let n := N_of_ascii c in
  ((65 <=? n) && (n <=? 90) || (192 <=? n) && (n <=? 222) && negb (n =? 215))%N.

Definition char_lower (c : ascii) : ascii :=
  if is_upper c then ascii_of_N (N_of_ascii c + 32) else c.

(** [str.isspace] on one code point below U+0100; this is the set that
    [str.split()] and [str.strip()] use. *)
Definition isspace (c : ascii) : bool :=
  let n := N_of_ascii c in
  ((9 <=? n) && (n <=? 13) || (28 <=? n) && (n <=? 32)
   || (n =? 133) || (n =? 160))%N.

(** [s.lower()] *)
Fixpoint lower (s : string) : string :=
  match s with
  | EmptyString => EmptyString
  | String c s' => String (char_lower c) (lower s')
  end.

(** [s.startswith(p)] *)
Fixpoint startswith (s p : string) : bool :=
  match p, s with
  | EmptyString, _ => true
  | String _ _, EmptyString => false
  | String a p', String b s' => if decide (a = b) then startswith s' p' else false
  end.

(** [needle in hay] on strings. *)
Fixpoint contains (needle hay : string) : bool :=
  startswith hay needle ||
  match hay with
  | EmptyString => false
  | String _ hay' => contains needle hay'
  end.

(** [s.lstrip()], [s.rstrip()] and [s.strip()] *)
Fixpoint lstrip (s : string) : string :=
  match s with
  | EmptyString => EmptyString
  | String c s' => if isspace c then lstrip s' else s
  end.

Definition rstrip (s : string) : string :=
  String.rev (lstrip (String.rev s)).

Definition strip (s : string) : string := rstrip (lstrip s).

(** [s.split()]: the maximal runs of non-space characters, in order.
    [cur] is the run being read, last character first. *)
Fixpoint split_go (cur : string) (s : string) : list string :=
  match s with
  | EmptyString => if decide (cur = EmptyString) then [] else [String.rev cur]
  | String c s' =>
      if isspace c
      then (if decide (cur = EmptyString) then [] else [String.rev cur])
             ++ split_go EmptyString s'
      else split_go (String c cur) s'
  end.

Definition split (s : string) : list string := split_go EmptyString s.

(** [sep.join(parts)] *)
Fixpoint join (sep : string) (parts : list string) : string :=
  match parts with
  | [] => EmptyString
  | [p] => p
  | p :: rest => p +:+ sep +:+ join sep rest
  end.

(** A string that is empty or holds white space only. *)
Definition blank (s : string) : bool :=
  forallb isspace (list_ascii_of_string s).

(** [a < b] on strings: lexicographic on code points. *)
Definition str_ltb (a b : string) : bool := String.ltb a b.

(** The code points of a string. A string that [str.capitalize] returns
    can hold code points from U+0100 on (the capital of U+00FF is U+0178),
    so such a string is kept as the list of its code points. *)
Definition codes (s : string) : list N := N_of_ascii <$> list_ascii_of_string s.

(** The title case of one code point below U+0100, in full: a..z and
    U+00E0..U+00FE without the division sign U+00F7 map to the code point
    32 below them, the micro sign U+00B5 to U+039C, the sharp s U+00DF to
    the two letters "Ss", and U+00FF to U+0178. *)
Definition char_title (c : ascii) : list N :=
  let n := N_of_ascii c in
  if ((97 <=? n) && (n <=? 122))%N then [(n - 32)%N]
  else if (n =? 181)%N then [924%N]
  else if (n =? 223)%N then [83%N; 115%N]
  else if (n =? 255)%N then [376%N]
  else if ((224 <=? n) && (n <=? 254) && negb (n =? 247))%N then [(n - 32)%N]
  else [n].

(** [s.capitalize()]: the first character in title case (so from
    Python 3.8 on), the others lower-cased. *)
Definition capitalize (s : string) : list N :=
  match s with
  | EmptyString => []
  | String c s' => char_title c ++ codes (lower s')
  end.

(** *** Values

    The values an activity record or a filter map holds: [None], a [bool],
    an [int], a [str], or a list of [str] (the [tags] of an activity). *)
Inductive value :=
  | VNone
  | VBool (b : bool)
  | VInt (z : Z)
  | VStr (s : string)
  | VList (l : list string).

(** The value of a number-like object: [bool] is a subclass of [int]. *)
Definition as_int (v : value) : option Z :=
  match v with
  | VBool b => Some (Z.b2z b)
  | VInt z => Some z
  | _ => None
  end.

(** [a == b]; it never raises on these values. *)
Definition eq (a b : value) : bool :=
  match a, b with
  | VNone, VNone => true
  | VStr s, VStr t => bool_decide (s = t)
  | VList l, VList k => bool_decide (l = k)
  | _, _ =>
      match as_int a, as_int b with
      | Some m, Some n => bool_decide (m = n)
      | _, _ => false
      end
  end.

(** [a < b] on lists of strings: lexicographic. *)
Fixpoint list_ltb (a b : list string) : bool :=
  match a, b with
  | _, [] => false
  | [], _ :: _ => true
  | x :: a', y :: b' => if decide (x = y) then list_ltb a' b' else str_ltb x y
  end.

(** [a >= b]; [None] stands for [TypeError] (operands that Python does
    not order). *)
Definition ge (a b : value) : option bool :=
  match a, b with
  | VStr s, VStr t => Some (negb (str_ltb s t))
  | VList l, VList k => Some (negb (list_ltb l k))
  | _, _ =>
      match as_int a, as_int b with
      | Some m, Some n => Some (n <=? m)
      | _, _ => None
      end
  end.

(** [a < b], the comparison [sorted] uses; [None] stands for [TypeError]. *)
Definition lt (a b : value) : option bool :=
  match a, b with
  | VStr s, VStr t => Some (str_ltb s t)
  | VList l, VList k => Some (list_ltb l k)
  | _, _ =>
      match as_int a, as_int b with
      | Some m, Some n => Some (m <? n)
      | _, _ => None
      end
  end.

(** Truth value of an object, as [if v:] and [filter(None, ...)] test it. *)
Definition truthy (v : value) : bool :=
  match v with
  | VNone => false
  | VBool b => b
  | VInt z => negb (z =? 0)
  | VStr s => negb (bool_decide (s = EmptyString))
  | VList l => negb (bool_decide (l = []))
  end.

(** *** Hashable values and sets

    What a [set] stores of a hashable value: equal values hash equal, so
    [True] and [1] are one element. *)
Inductive key :=
  | KNone
  | KInt (z : Z)
  | KStr (s : string).

Global Instance key_eq_dec : EqDecision key.
Proof. solve_decision. Defined.

Definition key_to_sum (k : key) : unit + (Z + string) :=
  match k with
  | KNone => inl tt
  | KInt z => inr (inl z)
  | KStr s => inr (inr s)
  end.

Definition key_of_sum (s : unit + (Z + string)) : key :=
  match s with
  | inl _ => KNone
  | inr (inl z) => KInt z
  | inr (inr s) => KStr s
  end.

Global Instance key_countable : Countable key.
Proof.
  apply (inj_countable' key_to_sum key_of_sum).
  intros []; reflexivity.
Defined.

(** [hash(v)] succeeds, and then [v] is this element; a list is
    unhashable ([TypeError], here [None]). *)
Definition hashable (v : value) : option key :=
  match v with
  | VNone => Some KNone
  | VBool b => Some (KInt (Z.b2z b))
  | VInt z => Some (KInt z)
  | VStr s => Some (KStr s)
  | VList _ => None
  end.

(** [v in s] for a set [s]: the value is hashed first. *)
Definition in_set (v : value) (s : gset key) : option bool :=
  k ← hashable v; Some (bool_decide (k ∈ s)).

(** *** Dictionaries *)

(** [d.get(k)] and [d.get(k, default)] on a record with string keys. *)
Definition get (d : gmap string value) (k : string) : value :=
  default VNone (d !! k).

Definition get_or (d : gmap string value) (k : string) (dflt : value) : value :=
  default dflt (d !! k).

(** An insertion-ordered dictionary with string keys: the items in
    insertion order, every key once. *)
Definition odict (V : Type) : Type := list (string * V).

Fixpoint oget {V} (d : odict V) (k : string) : option V :=
  match d with
  | [] => None
  | (k', v) :: d' => if decide (k' = k) then Some v else oget d' k
  end.

(** [d[k] = v]: in place for a key that is there, at the end for a new one. *)
Fixpoint oset {V} (d : odict V) (k : string) (v : V) : odict V :=
  match d with
  | [] => [(k, v)]
  | (k', v') :: d' =>
      if decide (k' = k) then (k', v) :: d' else (k', v') :: oset d' k v
  end.

Definition okeys {V} (d : odict V) : list string := d.*1.

(** *** Floating point

    [float(n)] for an [int]: the nearest double, ties to even;
    [OverflowError] ([None]) when that is not a finite double. *)
Definition float_of_int (z : Z) : option float :=
  let f := SF2Prim (binary_normalize prec emax z 0 false) in
  if is_finite f then Some f else None.

(** A float that is a number: not NaN. *)
Definition is_number (f : float) : Prop := is_nan f = false.

Definition sf_number (x : spec_float) : Prop := x ≠ S754_nan.

(** A spec float that is finite: a zero or a finite number. *)
Definition sf_finite (x : spec_float) : Prop :=
  match x with
  | S754_zero _ | S754_finite _ _ _ => True
  | _ => False
  end.

(** *** Sorting

    [sorted(l, key=key, reverse=reverse)]: the keys are computed first, in
    list order (an exception in [key] leaves the call); the decorated list
    is reversed when [reverse] is set, sorted stably with [<] on the keys,
    and reversed again. The stable sort is written as an insertion sort;
    for keys that [<] orders as a strict weak order every stable sort
    returns the same list. *)
Section Sorted.
Context {A K : Type} (lt : K → K → bool).

Fixpoint insert_by (x : K * A) (l : list (K * A)) : list (K * A) :=
  match l with
  | [] => [x]
  | y :: l' => if lt y.1 x.1 then y :: insert_by x l' else x :: y :: l'
  end.

Definition stable_sort (l : list (K * A)) : list (K * A) :=
  foldr insert_by [] l.

Definition sort_decorated (reverse : bool) (d : list (K * A)) : list (K * A) :=
  if reverse then rev (stable_sort (rev d)) else stable_sort d.

Definition decorate (key : A → option K) (l : list A) : option (list (K * A)) :=
  mapM (λ a, k ← key a; Some (k, a)) l.

Definition sorted (key : A → option K) (reverse : bool) (l : list A)
  : option (list A) :=
  d ← decorate key l; Some ((sort_decorated reverse d).*2).

(** [x] may stand before [y] in an ascending, resp. descending, list. *)
Definition asc_ok (x y : K * A) : Prop := lt y.1 x.1 = false.
Definition desc_ok (x y : K * A) : Prop := lt x.1 y.1 = false.

(** The keys equivalent to [k]: neither below nor above it. *)
Definition tied (k : K) (x : K * A) : bool := negb (lt x.1 k) && negb (lt k x.1).

(** Order and ties read on the elements, through [key]. *)
Definition in_order (key : A → option K) (r : bool) (a b : A) : Prop :=
  ∃ ka kb, key a = Some ka ∧ key b = Some kb ∧
           (if r then lt ka kb else lt kb ka) = false.

Definition tied_with (key : A → option K) (k : K) (a : A) : bool :=
  match key a with
  | Some ka => negb (lt ka k) && negb (lt k ka)
  | None => false
  end.

(** The same call for a [key] that cannot raise. *)
Definition sorted_by (key : A → K) (reverse : bool) (l : list A) : list A :=
  (sort_decorated reverse ((λ a, (key a, a)) <$> l)).*2.

End Sorted.

(** [sorted] with keys that are values. A call on two elements or more
    compares, at some point, two keys that end up next to each other, so it
    raises exactly when some two keys are not ordered by [<]: when the
    keys are not all numbers, all strings or all lists. *)
Definition same_kind (ks : list value) : bool :=
  forallb (λ k, bool_decide (is_Some (as_int k))) ks
  || forallb (λ k, match k with VStr _ => true | _ => false end) ks
  || forallb (λ k, match k with VList _ => true | _ => false end) ks.

Definition sorted_values {A} (key : A → option value) (reverse : bool) (l : list A)
  : option (list A) :=
  d ← decorate key l;
  if (length d <=? 1)%nat || same_kind d.*1
  then Some ((sort_decorated (λ a b, default false (lt a b)) reverse d).*2)
  else None.

(** [list.remove(x)]: the first occurrence goes. *)
Fixpoint list_remove (x : string) (l : list string) : list string :=
  match l with
  | [] => []
  | y :: l' => if decide (y = x) then l' else y :: list_remove x l'
  end.

(** *** Conversion to [int]

    [int(v)]: [inl] is the exception a caller may catch ([ValueError] or
    [TypeError]). A string may have white space on both sides; between
    them stand an optional sign and decimal digits, with single
    underscores allowed between digits. *)
Inductive conv_error := ValueError | TypeError.

(** The white space that [int] skips. It is narrower than [str.isspace]:
    below U+0080 only U+0009..U+000D and U+0020 count, so a string that
    holds one of the separators U+001C..U+001F is not converted. *)
Definition int_space (c : ascii) : bool :=
  let n := N_of_ascii c in
  ((9 <=? n) && (n <=? 13) || (n =? 32) || (n =? 133) || (n =? 160))%N.

Fixpoint int_lstrip (s : string) : string :=
  match s with
  | EmptyString => EmptyString
  | String c s' => if int_space c then int_lstrip s' else s
  end.

Definition int_strip (s : string) : string :=
  String.rev (int_lstrip (String.rev (int_lstrip s))).

(** The limit on the number of digits of a string that [int] converts
    ([sys.get_int_max_str_digits()], at its default value); a longer
    string is refused with [ValueError]. *)
Definition max_str_digits : Z := 4300.

Definition digit_of (c : ascii) : option Z :=
  let n := N_of_ascii c in
  if ((48 <=? n) && (n <=? 57))%N then Some (Z.of_N n - 48) else None.

Fixpoint parse_digits (acc : Z) (after_digit : bool) (s : string) : option Z :=
  match s with
  | EmptyString => if after_digit then Some acc else None
  | String c s' =>
      match digit_of c with
      | Some d => parse_digits (10 * acc + d) true s'
      | None =>
          if bool_decide (c = "_"%char) && after_digit
          then parse_digits acc false s'
          else None
      end
  end.

(** The digits of a string, underscores not counted. *)
Definition count_digits (s : string) : Z :=
  Z.of_nat (length (List.filter (λ c, bool_decide (is_Some (digit_of c)))
                      (list_ascii_of_string s))).

Definition int_of_digits (s : string) : option Z :=
  if max_str_digits <? count_digits s then None else parse_digits 0 false s.

Definition int_of_str (s : string) : option Z :=
  match int_strip s with
  | String "+" r => int_of_digits r
  | String "-" r => Z.opp <$> int_of_digits r
  | t => int_of_digits t
  end.

(** [int] of a value of the model. (A [float], which [int] truncates and
    for which it can also raise [OverflowError], is not one of them.) *)
Definition int (v : value) : conv_error + Z :=
  match v with
  | VBool b => inr (Z.b2z b)
  | VInt z => inr z
  | VStr s => match int_of_str s with Some z => inr z | None => inl ValueError end
  | VNone | VList _ => inl TypeError
  end.

End Py.

(** ** The search engine ([src/search_engine.py]) *)

Module SearchEngine.
Import Py.

(** An activity as the engine sees it: a record with string keys. *)
Abbreviation activity := (gmap string value).

(** The state of a [SearchEngine] object. [search_index] is iterated by
    [get_suggestions], so it keeps its insertion order. *)
Record t := mk {
  activities : list activity;
  search_index : odict (gset key);
  recent_searches : list string;
}.

(** [SearchEngine()] *)
Definition init : t := mk [] [] [].

Definition set_index (e : t) (idx : odict (gset key)) : t :=
  mk (activities e) idx (recent_searches e).

Definition set_recent (e : t) (r : list string) : t :=
  mk (activities e) (search_index e) r.

Definition set_activities (e : t) (l : list activity) : t :=
  mk l (search_index e) (recent_searches e).

(** [' '.join(activity.get('tags', []))]: a list of strings is joined, a
    string is iterated character by character, anything else is not
    iterable. *)
Definition join_tags (v : value) : option string :=
  match v with
  | VList l => Some (join " " l)
  | VStr s => Some (join " " ((λ c, String c EmptyString) <$> list_ascii_of_string s))
  | _ => None
  end.

(** [_create_searchable_text]: the truthy fields, which must then be
    strings, joined by single spaces. *)
Definition create_searchable_text (a : activity) : option string :=
  tags ← join_tags (get_or a "tags" (VList []));
  let searchable_fields :=
    [get_or a "name" (VStr ""); get_or a "description" (VStr "");
     get_or a "category" (VStr ""); VStr tags] in
  parts ← mapM (λ v, match v with VStr s => Some s | _ => None end)
               (List.filter truthy searchable_fields);
  Some (join " " parts).

(** [index_activity]. The identifier is hashed when it is added to the
    first word's posting set, after that set was created. *)
Definition index_activity (e : t) (a : activity) : t * option unit :=
  match create_searchable_text a with
  | None => (e, None)
  | Some text =>
      let words := split (lower text) in
      match hashable (get a "id") with
      | Some k =>
          (set_index e
             (foldl (λ idx w, oset idx w ({[k]} ∪ default ∅ (oget idx w)))
                    (search_index e) words),
           Some ())
      | None =>
          match words with
          | [] => (e, Some ())
          | w :: _ =>
              (set_index e
                 (if oget (search_index e) w is Some _ then search_index e
                  else oset (search_index e) w ∅),
               None)
          end
      end
  end.

(** [_find_matching_ids] *)
Definition find_matching_ids (e : t) (query_words : list string) : gset key :=
  match query_words with
  | [] => ∅
  | w :: rest =>
      foldl (λ matching_ids word,
               matching_ids ∩ default ∅ (oget (search_index e) word))
            (default ∅ (oget (search_index e) w)) rest
  end.

(** A list comprehension [[a for a in l if p(a)]] whose test may raise. *)
Fixpoint filter_opt {A} (p : A → option bool) (l : list A) : option (list A) :=
  match l with
  | [] => Some []
  | a :: l' =>
      b ← p a; r ← filter_opt p l'; Some (if b : bool then a :: r else r)
  end.

(** [_apply_filters] *)
Definition apply_filters (acts : list activity) (filters : gmap string value)
  : option (list activity) :=
  let filtered := acts in
  let filtered :=
    match filters !! "category" with
    | Some c => List.filter (λ a, eq (get a "category") c) filtered
    | None => filtered
    end in
  let filtered :=
    match filters !! "availability" with
    | Some v => List.filter (λ a, eq (get a "available") v) filtered
    | None => filtered
    end in
  let filtered :=
    match filters !! "schedule" with
    | Some s => List.filter (λ a, eq (get a "schedule") s) filtered
    | None => filtered
    end in
  match filters !! "min_popularity" with
  | Some m => filter_opt (λ a, ge (get_or a "popularity" (VInt 0)) m) filtered
  | None => Some filtered
  end.

(** [filter_activities] *)
Definition filter_activities (e : t) (filters : gmap string value)
  : option (list activity) :=
  apply_filters (activities e) filters.

(** [v.lower()] for the value of a text field: only a string has it. *)
Definition lower_of (v : value) : option string :=
  match v with
  | VStr s => Some (lower s)
  | _ => None
  end.

(** [v * 0.1] *)
Definition times_tenth (v : value) : option float :=
  z ← as_int v; f ← float_of_int z; Some (f * 0x1.999999999999ap-4)%float.

(** [relevance_score], the local function of [_rank_results]. *)
Definition relevance_score (query_lower : string) (a : activity) : option float :=
  name ← lower_of (get_or a "name" (VStr ""));
  description ← lower_of (get_or a "description" (VStr ""));
  category ← lower_of (get_or a "category" (VStr ""));
  boost ← times_tenth (get_or a "popularity" (VInt 0));
  let score := 0%float in
  let score := if contains query_lower name then (score + 10)%float else score in
  let score := if contains query_lower description then (score + 5)%float else score in
  let score := if contains query_lower category then (score + 3)%float else score in
  Some (score + boost)%float.

(** [_rank_results] *)
Definition rank_results (results : list activity) (query : string)
  : option (list activity) :=
  sorted PrimFloat.ltb (relevance_score (lower query)) true results.

(** [_add_recent_search] *)
Definition add_recent_search (e : t) (query : string) : t :=
  let r := recent_searches e in
  let r := if bool_decide (query ∈ r) then list_remove query r else r in
  let r := query :: r in
  set_recent e (take 10 r).

(** Truth value of the optional [filters] argument: [None] and the empty
    map are false. *)
Definition given (filters : option (gmap string value))
  : option (gmap string value) :=
  match filters with
  | Some f => if bool_decide (f = ∅) then None else Some f
  | None => None
  end.

(** [search]: the new state and the returned list, or the new state and
    [None] when an exception left the call. *)
Definition search (e : t) (query : string) (filters : option (gmap string value))
  : t * option (list activity) :=
  if bool_decide (strip query = EmptyString) then
    (e, match given filters with
        | Some f => filter_activities e f
        | None => Some (activities e)
        end)
  else
    let e := add_recent_search e query in
    let query_words := split (lower query) in
    let matching_ids := find_matching_ids e query_words in
    (e,
     results ← filter_opt (λ a, in_set (get a "id") matching_ids) (activities e);
     results ← match given filters with
               | Some f => apply_filters results f
               | None => Some results
               end;
     rank_results results query).

(** [get_suggestions] *)
Definition get_suggestions (e : t) (partial_query : string) : list string :=
  if bool_decide (partial_query = EmptyString) then take 5 (recent_searches e)
  else
    let partial_lower := lower partial_query in
    let suggestions :=
      List.filter (λ s, contains partial_lower (lower s)) (recent_searches e) in
    let suggestions :=
      foldl (λ sugg word,
               if startswith word partial_lower && negb (bool_decide (word ∈ sugg))
               then sugg ++ [word] else sugg)
            suggestions (okeys (search_index e)) in
    take 5 suggestions.

(** [sort_activities] *)
Definition sort_activities (acts : list activity) (sort_by : string)
  : option (list activity) :=
  if decide (sort_by = "alphabetical") then
    sorted str_ltb (λ x, lower_of (get_or x "name" (VStr ""))) false acts
  else if decide (sort_by = "popularity") then
    sorted_values (λ x, Some (get_or x "popularity" (VInt 0))) true acts
  else if decide (sort_by = "date") then
    sorted_values (λ x, Some (get_or x "created_at" (VStr ""))) true acts
  else Some acts.

End SearchEngine.

(** ** The filter manager ([src/filters.py]) *)

Module FilterManager.
Import Py.

Record t := mk {
  available_categories : gset key;
  available_schedules : gset key;
}.

(** [FilterManager()] *)
Definition init : t := mk ∅ ∅.

(** One turn of the loop of [update_available_filters]; [set.add] hashes
    its argument. *)
Definition update_one (fm : t) (a : gmap string value) : t * option unit :=
  match
    match a !! "category" with
    | Some c =>
        match hashable c with
        | Some k => Some (mk ({[k]} ∪ available_categories fm) (available_schedules fm))
        | None => None
        end
    | None => Some fm
    end
  with
  | None => (fm, None)
  | Some fm1 =>
      match a !! "schedule" with
      | Some s =>
          match hashable s with
          | Some k =>
              (mk (available_categories fm1) ({[k]} ∪ available_schedules fm1), Some ())
          | None => (fm1, None)
          end
      | None => (fm1, Some ())
      end
  end.

(** [update_available_filters]: the loop stops at the first exception,
    with what was added so far. *)
Fixpoint update_available_filters (fm : t) (acts : list (gmap string value))
  : t * option unit :=
  match acts with
  | [] => (fm, Some ())
  | a :: rest =>
      match update_one fm a with
      | (fm', Some _) => update_available_filters fm' rest
      | (fm', None) => (fm', None)
      end
  end.

(** [validate_filters]; [None] when an exception leaves the call. The
    [try] of the source catches what [int] raises. *)
Definition validate_filters (fm : t) (filters : gmap string value)
  : option (gmap string value) :=
  let valid_filters : gmap string value := ∅ in
  valid_filters ←
    match filters !! "category" with
    | Some c =>
        known ← in_set c (available_categories fm);
        Some (if known : bool then <["category" := c]> valid_filters else valid_filters)
    | None => Some valid_filters
    end;
  valid_filters ←
    match filters !! "schedule" with
    | Some s =>
        known ← in_set s (available_schedules fm);
        Some (if known : bool then <["schedule" := s]> valid_filters else valid_filters)
    | None => Some valid_filters
    end;
  let valid_filters :=
    match filters !! "availability" with
    | Some (VBool b) => <["availability" := VBool b]> valid_filters
    | _ => valid_filters
    end in
  let valid_filters :=
    match filters !! "min_popularity" with
    | Some v =>
        match int v with
        | inr z => <["min_popularity" := VInt z]> valid_filters
        | inl _ => valid_filters
        end
    | None => valid_filters
    end in
  Some valid_filters.

End FilterManager.

(** ** The HTTP application ([src/app.py]) *)

Module App.
Import Py.

(** One entry of the [activities] dictionary. Every entry of the source
    has the four fields that the handlers index; [category] is read with
    [.get]. *)
Record Activity := mkActivity {
  description : string;
  schedule : string;
  max_participants : Z;
  participants : list string;
  category : option string;
}.

(** The in-memory activity database. *)
Definition activities : odict Activity := [
  ("Chess Club",
   mkActivity "Learn strategies and compete in chess tournaments"
     "Fridays, 3:30 PM - 5:00 PM" 12
     ["michael@mergington.edu"; "daniel@mergington.edu"] (Some "Academic"));
  ("Programming Class",
   mkActivity "Learn programming fundamentals and build software projects"
     "Tuesdays and Thursdays, 3:30 PM - 4:30 PM" 20
     ["emma@mergington.edu"; "sophia@mergington.edu"] (Some "Academic"));
  ("Gym Class",
   mkActivity "Physical education and sports activities"
     "Mondays, Wednesdays, Fridays, 2:00 PM - 3:00 PM" 30
     ["john@mergington.edu"; "olivia@mergington.edu"] (Some "Sports"));
  ("Soccer Team",
   mkActivity "Join the school soccer team and compete in matches"
     "Tuesdays and Thursdays, 4:00 PM - 5:30 PM" 22
     ["liam@mergington.edu"; "noah@mergington.edu"] (Some "Sports"));
  ("Basketball Team",
   mkActivity "Practice and play basketball with the school team"
     "Wednesdays and Fridays, 3:30 PM - 5:00 PM" 15
     ["ava@mergington.edu"; "mia@mergington.edu"] (Some "Sports"));
  ("Art Club",
   mkActivity "Explore your creativity through painting and drawing"
     "Thursdays, 3:30 PM - 5:00 PM" 15
     ["amelia@mergington.edu"; "harper@mergington.edu"] (Some "Arts"));
  ("Drama Club",
   mkActivity "Act, direct, and produce plays and performances"
     "Mondays and Wednesdays, 4:00 PM - 5:30 PM" 20
     ["ella@mergington.edu"; "scarlett@mergington.edu"] (Some "Arts"));
  ("Math Club",
   mkActivity "Solve challenging problems and participate in math competitions"
     "Tuesdays, 3:30 PM - 4:30 PM" 10
     ["james@mergington.edu"; "benjamin@mergington.edu"] (Some "Academic"));
  ("Debate Team",
   mkActivity "Develop public speaking and argumentation skills"
     "Fridays, 4:00 PM - 5:30 PM" 12
     ["charlotte@mergington.edu"; "henry@mergington.edu"] (Some "Academic"));
  ("GitHub Skills",
   mkActivity "Learn practical coding and collaboration skills through GitHub. Part of our GitHub Certifications program to help with college applications"
     "Mondays and Wednesdays, 3:30 PM - 5:00 PM" 25
     [] (Some "Academic"))
].

(** The enumeration [SortBy]. *)
Module SortBy.
Inductive t := name | participants | availability.
End SortBy.

(** [len(l)] *)
Definition len {A} (l : list A) : Z := Z.of_nat (length l).

(** Truth value of an optional string argument: [None] and [""] are
    false. *)
Definition nonempty (o : option string) : option string :=
  match o with
  | Some s => if bool_decide (s = EmptyString) then None else Some s
  | None => None
  end.

(** The body of the loop of [search_activities]: the final value of
    [include] for one entry. *)
Definition include (q category : option string) (available : option bool)
  (day : option string) (activity_name : string) (activity_data : Activity) : bool :=
  let include := true in
  let include :=
    match nonempty q with
    | Some q =>
        let search_term := lower q in
        if negb (contains search_term (lower activity_name))
           && negb (contains search_term (lower (description activity_data)))
        then false else include
    | None => include
    end in
  let include :=
    match nonempty category with
    | Some c =>
        if include then
          if bool_decide (lower (default EmptyString (App.category activity_data)) ≠ lower c)
          then false else include
        else include
    | None => include
    end in
  let include :=
    match available with
    | Some available =>
        if include then
          let has_space := len (participants activity_data) <? max_participants activity_data in
          if negb (Bool.eqb available has_space) then false else include
        else include
    | None => include
    end in
  let include :=
    match nonempty day with
    | Some d =>
        if include then
          if negb (contains (lower d) (lower (schedule activity_data)))
          then false else include
        else include
    | None => include
    end in
  include.

(** The sorting step of [search_activities]. *)
Definition sort_results (sort_by : option SortBy.t) (results : odict Activity)
  : odict Activity :=
  match sort_by with
  | Some SortBy.name =>
      sorted_by str_ltb (λ x, lower x.1) false results
  | Some SortBy.participants =>
      sorted_by Z.ltb (λ x, len (participants x.2)) true results
  | Some SortBy.availability =>
      sorted_by Z.ltb (λ x, max_participants x.2 - len (participants x.2)) true results
  | None => results
  end.

(** The response of [search_activities]. *)
Record Response := mkResponse {
  total : Z;
  query : option string;
  filter_category : option string;
  filter_available : option bool;
  filter_day : option string;
  filter_sort_by : option SortBy.t;
  results : odict Activity;
}.

(** [search_activities], on the database [acts]. *)
Definition search_activities (acts : odict Activity) (q category : option string)
  (available : option bool) (sort_by : option SortBy.t) (day : option string)
  : Response :=
  let results :=
    List.filter (λ x, include q category available day x.1 x.2) acts in
  let results := sort_results sort_by results in
  mkResponse (len results) q category available day sort_by results.

(** [HTTPException(status_code, detail)] *)
Record HTTPException := mkHTTPException {
  status_code : Z;
  detail : string;
}.

(** The three rejections of the roster handlers, under the names the
    specification gives them. *)
Definition ActivityNotFound : HTTPException :=
  mkHTTPException 404 "Activity not found".

Definition AlreadyRegistered : HTTPException :=
  mkHTTPException 400 "Student is already signed up".

Definition NotRegistered : HTTPException :=
  mkHTTPException 400 "Student is not signed up for this activity".

(** The participants list of an entry, replaced in place. *)
Definition with_participants (a : Activity) (l : list string) : Activity :=
  mkActivity (description a) (schedule a) (max_participants a) l (category a).

(** [signup_for_activity]: the database after the call, and the raised
    exception or the returned message. *)
Definition signup_for_activity (acts : odict Activity) (activity_name email : string)
  : odict Activity * (HTTPException + string) :=
  match oget acts activity_name with
  | None => (acts, inl ActivityNotFound)
  | Some activity =>
      if bool_decide (email ∈ participants activity)
      then (acts, inl AlreadyRegistered)
      else
        (oset acts activity_name
           (with_participants activity (participants activity ++ [email])),
         inr ("Signed up " +:+ email +:+ " for " +:+ activity_name))
  end.

(** [unregister_from_activity] *)
Definition unregister_from_activity (acts : odict Activity)
  (activity_name email : string) : odict Activity * (HTTPException + string) :=
  match oget acts activity_name with
  | None => (acts, inl ActivityNotFound)
  | Some activity =>
      if bool_decide (email ∈ participants activity)
      then
        (oset acts activity_name
           (with_participants activity (list_remove email (participants activity))),
         inr ("Unregistered " +:+ email +:+ " from " +:+ activity_name))
      else (acts, inl NotRegistered)
  end.

End App.

(** ** Vocabulary of the properties: the roster and the HTTP handler *)

Module AppSpec.
Import Py App.

(** The fields of an entry that the roster handlers never write. *)
Definition same_but_participants (a b : Activity) : Prop :=
  description a = description b ∧ schedule a = schedule b
  ∧ max_participants a = max_participants b ∧ category a = category b.

(** What a call may change in the database [acts], giving [acts']: the
    names and their order stay, every activity other than the named one
    stays, and the named one keeps its description, schedule, capacity
    and category. *)
Definition only_roster_changed (activity_name : string) (acts acts' : odict Activity)
  : Prop :=
  okeys acts' = okeys acts
  ∧ (∀ other, other ≠ activity_name → oget acts' other = oget acts other)
  ∧ (∀ a, oget acts activity_name = Some a →
       ∃ a', oget acts' activity_name = Some a' ∧ same_but_participants a a').

(** The free places of an entry. *)
Definition free_places (x : string * Activity) : Z :=
  max_participants x.2 - len (participants x.2).

End AppSpec.

(** ** Vocabulary of the properties: the search engine *)

Module SearchSpec.
Import Py SearchEngine.

(** A sequence of [search] calls, each with its query and filters; the
    state after the last one. *)
Fixpoint run_searches (e : t) (calls : list (string * option (gmap string value))) : t :=
  match calls with
  | [] => e
  | (q, f) :: rest => run_searches (search e q f).1 rest
  end.

(** The distinct entries of a list, each at its first occurrence. *)
Fixpoint distinct (l : list string) : list string :=
  match l with
  | [] => []
  | x :: l' => x :: filter (λ y, y ≠ x) (distinct l')
  end.

(** The queries that [search] records, oldest first. *)
Definition recorded (calls : list (string * option (gmap string value))) : list string :=
  filter (λ q, blank q = false) calls.*1.

(** One equality criterion of a filter map: inactive when its key is not
    in the map. *)
Definition criterion (filters : gmap string value) (k field : string) (a : activity)
  : bool :=
  match filters !! k with
  | Some v => eq (get a field) v
  | None => true
  end.

(** The popularity criterion; it may raise. *)
Definition popular_enough (filters : gmap string value) (a : activity) : option bool :=
  match filters !! "min_popularity" with
  | Some m => ge (get_or a "popularity" (VInt 0)) m
  | None => Some true
  end.

(** An activity passes every active criterion of the engine. *)
Definition matches (filters : gmap string value) (a : activity) : bool :=
  criterion filters "category" "category" a
  && criterion filters "availability" "available" a
  && criterion filters "schedule" "schedule" a
  && default false (popular_enough filters a).

(** The posting set of a term: the empty set for a term that is not in
    the index. *)
Definition posting (e : t) (w : string) : gset key :=
  default ∅ (oget (search_index e) w).

(** The candidate set of a query. *)
Definition candidates (e : t) (q : string) : gset key :=
  find_matching_ids e (split (lower q)).

(** The activities that survive the text search and the filters, before
    they are ranked. *)
Definition surviving (e : t) (q : string) (filters : option (gmap string value))
  : option (list activity) :=
  results ← filter_opt (λ a, in_set (get a "id") (candidates e q)) (activities e);
  match given filters with
  | Some f => apply_filters results f
  | None => Some results
  end.


(** The points of an activity for a query, in the words of the
    specification: 10 if the lower-cased query is in the lower-cased
    name, plus 5 if it is in the lower-cased description, plus 3 if it is
    in the lower-cased category. *)
Definition points (query_lower : string) (a : activity) : option Z :=
  name ← lower_of (get_or a "name" (VStr ""));
  description ← lower_of (get_or a "description" (VStr ""));
  category ← lower_of (get_or a "category" (VStr ""));
  Some ((if contains query_lower name then 10 else 0)
        + (if contains query_lower description then 5 else 0)
        + (if contains query_lower category then 3 else 0)).

(** The relevance score in the words of the specification, read in
    double arithmetic: the points plus the popularity times 0.1, where
    the points and the popularity are taken as doubles, 0.1 is the double
    nearest to it, and the product and the sum are rounded. *)
Definition spec_relevance_score (query_lower : string) (a : activity) : option float :=
  p ← points query_lower a;
  popularity ← as_int (get_or a "popularity" (VInt 0));
  base ← float_of_int p;
  pop ← float_of_int popularity;
  Some (base + pop * 0x1.999999999999ap-4)%float.

(** The same score read in exact arithmetic, counted in tenths: ten times
    the points plus the popularity. *)
Definition exact_score_tenths (query_lower : string) (a : activity) : option Z :=
  p ← points query_lower a;
  popularity ← as_int (get_or a "popularity" (VInt 0));
  Some (10 * p + popularity).

(** The activities with this score. *)
Definition scores (query_lower : string) (k : float) (a : activity) : bool :=
  match relevance_score query_lower a with
  | Some s => (s =? k)%float
  | None => false
  end.

(** A record whose identifier is hashable, whose text fields are strings
    where present, and whose popularity is an integer that a double can
    hold where present. *)
Definition well_formed (a : activity) : bool :=
  bool_decide (is_Some (hashable (get a "id")))
  && bool_decide (is_Some (lower_of (get_or a "name" (VStr ""))))
  && bool_decide (is_Some (lower_of (get_or a "description" (VStr ""))))
  && bool_decide (is_Some (lower_of (get_or a "category" (VStr ""))))
  && bool_decide (is_Some (as_int (get_or a "popularity" (VInt 0)) ≫= float_of_int)).

(** Filters whose minimum popularity, if any, is a number. *)
Definition comparable (filters : option (gmap string value)) : bool :=
  match filters with
  | Some f =>
      match f !! "min_popularity" with
      | Some m => bool_decide (is_Some (as_int m))
      | None => true
      end
  | None => true
  end.

End SearchSpec.

(** ** Sample data *)

Module Samples.
Import Py.



(** A small catalogue in the engine's schema. The two first records tie
    in exact arithmetic for the query "chess" (10 + 1 × 0.1 against
    101 × 0.1) and do not tie in doubles. *)
Definition chess_club : SearchEngine.activity :=
  list_to_map [("id", VInt 1); ("name", VStr "Chess Club");
               ("description", VStr "Board games after school");
               ("category", VStr "Academic"); ("available", VBool true);
               ("popularity", VInt 1)].

Definition strategy_lab : SearchEngine.activity :=
  list_to_map [("id", VInt 2); ("name", VStr "Strategy Lab");
               ("description", VStr "Tactics and openings");
               ("category", VStr "Academic"); ("tags", VList ["chess"; "go"]);
               ("popularity", VInt 101)].

Definition art_club : SearchEngine.activity :=
  list_to_map [("id", VInt 3); ("name", VStr "Art Club");
               ("description", VStr "Painting and drawing");
               ("category", VStr "Arts"); ("popularity", VInt 7)].

Definition sample_catalogue : list SearchEngine.activity :=
  [chess_club; strategy_lab; art_club].

(** An engine holding the catalogue, every record indexed. *)
Definition sample_engine : SearchEngine.t :=
  foldl (λ e a, (SearchEngine.index_activity e a).1)
        (SearchEngine.set_activities SearchEngine.init sample_catalogue)
        sample_catalogue.

End Samples.

(** ** Sequences of roster calls *)

Module RosterRuns.
Import Py App.

(** One call of a roster handler. *)
Inductive roster_call :=
  | Signup (activity_name email : string)
  | Unregister (activity_name email : string).

(** The database after one call, whatever its outcome. *)
Definition roster_step (acts : odict Activity) (c : roster_call) : odict Activity :=
  match c with
  | Signup n e => (signup_for_activity acts n e).1
  | Unregister n e => (unregister_from_activity acts n e).1
  end.

(** The database after a sequence of calls. *)
Definition run_roster (acts : odict Activity) (calls : list roster_call)
  : odict Activity :=
  foldl roster_step acts calls.

(** No roster of the database lists an address twice. *)
Definition rosters_distinct (acts : odict Activity) : Prop :=
  Forall (λ x, NoDup (participants x.2)) acts.

End RosterRuns.

(** ** Vocabulary of the properties: indexing *)

Module IndexSpec.
Import Py SearchEngine.

(** The words under which [index_activity] files a record: the words of
    its lower-cased searchable text. *)
Definition words_of (a : activity) : option (list string) :=
  text ← create_searchable_text a; Some (split (lower text)).

End IndexSpec.

(** ** Vocabulary of the properties: filter validation *)

Module FilterSpec.
Import Py FilterManager.

(** What [validate_filters] keeps under a key [k] of the filter map:
    a known category, a known schedule, a boolean availability, the
    integer that [int] makes of the minimum popularity; nothing under
    another key. *)
Definition kept (fm : t) (filters : gmap string value) (k : string) : option value :=
  if decide (k = "category") then
    c ← filters !! "category";
    key ← hashable c;
    if bool_decide (key ∈ available_categories fm) then Some c else None
  else if decide (k = "schedule") then
    s ← filters !! "schedule";
    key ← hashable s;
    if bool_decide (key ∈ available_schedules fm) then Some s else None
  else if decide (k = "availability") then
    match filters !! "availability" with
    | Some (VBool b) => Some (VBool b)
    | _ => None
    end
  else if decide (k = "min_popularity") then
    v ← filters !! "min_popularity";
    match int v with
    | inr z => Some (VInt z)
    | inl _ => None
    end
  else None.

(** An entry added to a map when there is a value for it. *)
Definition insert_if (k : string) (o : option value) (m : gmap string value)
  : gmap string value :=
  match o with
  | Some v => <[k := v]> m
  | None => m
  end.

End FilterSpec.

(** ** The other handlers of the HTTP application ([src/app.py]) *)

Module AppQueries.
Import Py App.

(** [get_activities] *)
Definition get_activities (acts : odict Activity) : odict Activity := acts.

(** The set [categories] that the loop of [get_categories] builds. *)
Definition category_set (acts : odict Activity) : gset string :=
  foldl (λ categories x,
           match category x.2 with
           | Some c => {[c]} ∪ categories
           | None => categories
           end)
        ∅ acts.

(** [get_categories]: [sorted(list(categories))]. The order in which
    [list] enumerates a set is not fixed by the language; the sorted list
    is the same for every enumeration, since the members are distinct
    strings. *)
Definition get_categories (acts : odict Activity) : list string :=
  sorted_by str_ltb (λ c, c) false (elements (category_set acts)).

(** A suggestion of [get_search_suggestions], the dictionary
    [{"text": ..., "type": ...}]; the text as its code points. *)
Record suggestion := mk_suggestion {
  text : list N;
  type : string;
}.

(** [{"text": activity_name, "type": "activity"}] *)
Definition activity_suggestion (activity_name : string) : suggestion :=
  mk_suggestion (codes activity_name) "activity".

(** [{"text": word.capitalize(), "type": "keyword"}] *)
Definition keyword_suggestion (word : string) : suggestion :=
  mk_suggestion (capitalize word) "keyword".

(** The value of [sort_by] in [search_activities] when the request leaves
    it out: the default of the parameter, [Query(SortBy.name, ...)]. *)
Definition default_sort_by : option SortBy.t := Some SortBy.name.

(** The code point U+00DF, the sharp s. *)
Definition sharp_s : ascii := ascii_of_N 223.

(** [len(s)] of a string *)
Definition str_len (s : string) : Z := Z.of_nat (String.length s).

(** The body of the inner loop of [get_search_suggestions], on the pair
    of [suggestions] and [seen_keywords]. *)
Definition keyword_step (query_lower : string)
  (st : list suggestion * gset string) (word : string)
  : list suggestion * gset string :=
  if contains query_lower word && (3 <? str_len word)
     && negb (bool_decide (word ∈ st.2))
  then (st.1 ++ [keyword_suggestion word], {[word]} ∪ st.2)
  else st.

(** [get_search_suggestions]: the echoed query and the suggestions. (The
    framework refuses an empty [q] before the handler runs; the handler
    itself is defined for every string.) *)
Definition get_search_suggestions (acts : odict Activity) (q : string)
  : string * list suggestion :=
  let query_lower := lower q in
  let suggestions :=
    activity_suggestion
      <$> List.filter (λ activity_name, contains query_lower (lower activity_name))
            (okeys acts) in
  let st :=
    foldl (λ st x, foldl (keyword_step query_lower) st (split (lower (description x.2))))
          (suggestions, ∅) acts in
  (q, take 10 st.1).

(** The words of all descriptions, in the order the loops read them. *)
Definition description_words (acts : odict Activity) : list string :=
  x ← acts; split (lower (description x.2)).

End AppQueries.

(** ** Reading the engine's sort keys *)

Module EngineSpec.
Import Py SearchEngine.

(** [activity.get('popularity', 0)] read as a number, when it is one. *)
Definition popularity_of (a : activity) : option Z :=
  as_int (get_or a "popularity" (VInt 0)).

(** [activity.get('name', '').lower()], when the name has [lower]. *)
Definition name_key (a : activity) : option string :=
  lower_of (get_or a "name" (VStr "")).

(** [<] on keys as [sorted] applies it where it is defined. *)
Definition value_ltb (a b : value) : bool := default false (lt a b).

End EngineSpec.

(** * Properties *)

(** ** Stable sorting

    [sorted] on keys that [lt] orders as a strict weak order. The keys
    that occur are those of a domain [D] (all keys for integers and
    strings, the numbers for floats). *)

Module SortFacts.
Import Py.

Section StableSort.
Context {A K : Type} (lt : K → K → bool) (D : K → Prop).
Hypothesis lt_asym : ∀ a b, D a → D b → lt a b = true → lt b a = false.
Hypothesis lt_negtrans :
  ∀ a b c, D a → D b → D c → lt a b = false → lt b c = false → lt a c = false.

Lemma insert_by_perm (x : K * A) l : insert_by lt x l ≡ₚ x :: l.
Proof.
  induction l as [|y l IH]; simpl; [done|].
  destruct (lt y.1 x.1); [|done].
  rewrite IH. apply Permutation_swap.
Qed.

Lemma stable_sort_perm (l : list (K * A)) : stable_sort lt l ≡ₚ l.
Proof.
  induction l as [|x l IH]; simpl; [done|].
  rewrite insert_by_perm. by rewrite IH.
Qed.

Lemma sort_decorated_perm (r : bool) (d : list (K * A)) : sort_decorated lt r d ≡ₚ d.
Proof.
  destruct r; simpl; [|apply stable_sort_perm].
  rewrite <- Permutation_rev, stable_sort_perm. symmetry. apply Permutation_rev.
Qed.

Lemma insert_by_asc (x : K * A) l :
  D x.1 → Forall (λ y, D y.1) l →
  StronglySorted (asc_ok lt) l → StronglySorted (asc_ok lt) (insert_by lt x l).
Proof.
  intros Hx Hl Hs. induction Hs as [|y l Hs IH Hy]; simpl.
  - repeat constructor.
  - apply Forall_cons in Hl as [Hdy Hl].
    destruct (lt y.1 x.1) eqn:E.
    + constructor; [by apply IH|].
      rewrite insert_by_perm. constructor; [|done].
      unfold asc_ok. by apply lt_asym.
    + constructor; [by constructor|].
      constructor; [done|].
      rewrite Forall_forall in Hy, Hl |- *. intros z Hz.
      unfold asc_ok in *. apply (lt_negtrans _ y.1); auto.
Qed.

Lemma stable_sort_asc (l : list (K * A)) :
  Forall (λ y, D y.1) l → StronglySorted (asc_ok lt) (stable_sort lt l).
Proof.
  induction 1 as [|x l Hx Hl IH]; simpl; [constructor|].
  apply insert_by_asc; [done| |done].
  by rewrite stable_sort_perm.
Qed.

Lemma StronglySorted_rev (R : relation (K * A)) l :
  StronglySorted R l → StronglySorted (flip R) (rev l).
Proof.
  induction 1 as [|x l Hs IH Hx]; simpl; [constructor|].
  apply StronglySorted_app_2; [|done|repeat constructor].
  intros a b Ha Hb. apply list_elem_of_In, in_rev, list_elem_of_In in Ha.
  apply list_elem_of_singleton in Hb as ->.
  rewrite Forall_forall in Hx. by apply Hx.
Qed.

(** The sorted list is in order: ascending, or descending for [reverse]. *)
Lemma sort_decorated_ordered (r : bool) (d : list (K * A)) :
  Forall (λ y, D y.1) d →
  StronglySorted (if r then (desc_ok lt) else (asc_ok lt)) (sort_decorated lt r d).
Proof.
  intros Hd. destruct r; simpl; [|by apply stable_sort_asc].
  apply (StronglySorted_rev (asc_ok lt)), stable_sort_asc.
  apply Forall_forall. intros x Hx. rewrite Forall_forall in Hd. apply Hd.
  by apply list_elem_of_In, in_rev, list_elem_of_In.
Qed.

Lemma insert_by_tied k (x : K * A) l :
  D k → D x.1 → Forall (λ y, D y.1) l →
  List.filter (tied lt k) (insert_by lt x l) = List.filter (tied lt k) (x :: l).
Proof.
  intros Hk Hx Hl. induction Hl as [|y l Hy Hl IH]; [done|].
  cbn [insert_by]. destruct (lt y.1 x.1) eqn:E; [|done].
  cbn [List.filter] in *. rewrite IH.
  destruct (tied lt k y) eqn:Ty, (tied lt k x) eqn:Tx; try done.
  unfold tied in *.
  apply andb_true_iff in Ty as [Ty1 Ty2], Tx as [Tx1 Tx2].
  apply negb_true_iff in Ty1, Ty2, Tx1, Tx2.
  rewrite (lt_negtrans y.1 k x.1) in E; done.
Qed.

Lemma stable_sort_tied k (l : list (K * A)) :
  D k → Forall (λ y, D y.1) l →
  List.filter (tied lt k) (stable_sort lt l) = List.filter (tied lt k) l.
Proof.
  intros Hk Hl. induction Hl as [|x l Hx Hl IH]; [done|].
  cbn [stable_sort foldr]. rewrite insert_by_tied; [|done..|].
  - cbn [List.filter]. fold (stable_sort lt l). by rewrite IH.
  - fold (stable_sort lt l). by rewrite stable_sort_perm.
Qed.

Lemma filter_rev {B} (p : B → bool) (l : list B) :
  List.filter p (rev l) = rev (List.filter p l).
Proof.
  induction l as [|x l IH]; [done|]. simpl.
  rewrite List.filter_app, IH. simpl. destruct (p x); simpl; [done|].
  by rewrite app_nil_r.
Qed.

(** The sort is stable, also for [reverse]: entries with equivalent keys
    keep their order. *)
Lemma sort_decorated_stable (r : bool) k (d : list (K * A)) :
  D k → Forall (λ y, D y.1) d →
  List.filter (tied lt k) (sort_decorated lt r d) = List.filter (tied lt k) d.
Proof.
  intros Hk Hd. destruct r; simpl; [|by apply stable_sort_tied].
  rewrite filter_rev, stable_sort_tied, filter_rev, rev_involutive; [done..|].
  apply Forall_forall. intros x Hx. rewrite Forall_forall in Hd. apply Hd.
  by apply list_elem_of_In, in_rev, list_elem_of_In.
Qed.

(** The decorated list pairs every element with its key. *)
Lemma decorate_spec (key : A → option K) l d :
  decorate key l = Some d → d.*2 = l ∧ Forall (λ x, key x.2 = Some x.1) d.
Proof.
  revert d. induction l as [|a l IH]; intros d; unfold decorate; simpl.
  - intros [= <-]. by split.
  - destruct (key a) as [k|] eqn:Ek; simpl; [|done].
    fold (decorate key l). destruct (decorate key l) as [d'|]; simpl; [|done].
    intros [= <-]. destruct (IH d' eq_refl) as [Hl Hf].
    split; [by rewrite fmap_cons, Hl|]. by constructor.
Qed.

Lemma decorate_total (key : A → option K) l :
  Forall (λ a, is_Some (key a)) l → is_Some (decorate key l).
Proof.
  induction 1 as [|a l [k Hk] Hl [d Hd]]; [by eexists|].
  unfold decorate in *. simpl. rewrite Hk. simpl. rewrite Hd. by eexists.
Qed.

Lemma StronglySorted_snd (R : relation (K * A)) (R' : relation A)
    (P : K * A → Prop) (d : list (K * A)) :
  (∀ x y, P x → P y → R x y → R' x.2 y.2) →
  Forall P d → StronglySorted R d → StronglySorted R' d.*2.
Proof.
  intros HR Hd Hs. induction Hs as [|x d Hs IH Hx]; simpl; [constructor|].
  apply Forall_cons in Hd as [Hpx Hd]. constructor; [by apply IH|].
  apply Forall_fmap, Forall_forall. intros y Hy.
  rewrite Forall_forall in Hx, Hd. apply HR; auto.
Qed.

Lemma filter_snd (key : A → option K) k (d : list (K * A)) :
  Forall (λ x, key x.2 = Some x.1) d →
  List.filter (tied_with lt key k) d.*2 = (List.filter (tied lt k) d).*2.
Proof.
  induction 1 as [|x d Hx Hd IH]; [done|].
  rewrite fmap_cons. cbn [List.filter].
  unfold tied_with at 1. rewrite Hx. fold (tied lt k x).
  destruct (tied lt k x); [rewrite fmap_cons|]; by rewrite IH.
Qed.

(** What [sorted] returns: the elements of the argument, in key order,
    ties in their order in the argument. *)
Lemma sorted_spec (key : A → option K) (r : bool) l res :
  (∀ a k, a ∈ l → key a = Some k → D k) →
  sorted lt key r l = Some res →
  res ≡ₚ l
  ∧ StronglySorted (in_order lt key r) res
  ∧ ∀ k, D k → List.filter (tied_with lt key k) res = List.filter (tied_with lt key k) l.
Proof.
  intros HD. unfold sorted.
  destruct (decorate key l) as [d|] eqn:Ed; simpl; [|done]. intros [= <-].
  apply decorate_spec in Ed as [<- Hk].
  assert (Forall (λ y, D y.1) d) as HDd.
  { apply Forall_forall. intros x Hx. apply (HD x.2).
    - apply list_elem_of_fmap. by exists x.
    - rewrite Forall_forall in Hk. by apply Hk. }
  assert (Forall (λ x, key x.2 = Some x.1) (sort_decorated lt r d)) as Hk'.
  { by rewrite sort_decorated_perm. }
  split_and!.
  - by rewrite sort_decorated_perm.
  - eapply StronglySorted_snd; [|exact Hk'|by apply sort_decorated_ordered].
    intros x y Hx Hy Hxy. exists x.1, y.1. split_and!; [done..|].
    by destruct r.
  - intros k Dk. rewrite !filter_snd by done.
    by rewrite sort_decorated_stable.
Qed.

Lemma sorted_total (key : A → option K) (r : bool) l :
  Forall (λ a, is_Some (key a)) l → is_Some (sorted lt key r l).
Proof.
  intros H. apply decorate_total in H as [d Hd].
  unfold sorted. rewrite Hd. by eexists.
Qed.

Lemma sorted_by_sorted (key : A → K) (r : bool) l :
  sorted lt (λ a, Some (key a)) r l = Some (sorted_by lt key r l).
Proof.
  unfold sorted, sorted_by.
  assert (decorate (λ a, Some (key a)) l = Some ((λ a, (key a, a)) <$> l)) as ->; [|done].
  induction l as [|a l IH]; [done|].
  unfold decorate in *. cbn [mapM]. rewrite IH. done.
Qed.

End StableSort.

Lemma StronglySorted_mono {A} (R R' : relation A) (l : list A) :
  (∀ a b, R a b → R' a b) → StronglySorted R l → StronglySorted R' l.
Proof.
  intros HR. induction 1 as [|a l Hs IH Ha]; constructor; [done|].
  eapply Forall_impl; [exact Ha|]. intros b. apply HR.
Qed.

(** Keys that [lt] orders totally: two keys that are not ordered are
    equal. This is the case of integers and of strings. *)
Section TotalKeys.
Context {A K : Type} `{EqDecision K} (lt : K → K → bool).
Hypothesis lt_asym : ∀ a b, lt a b = true → lt b a = false.
Hypothesis lt_negtrans : ∀ a b c, lt a b = false → lt b c = false → lt a c = false.
Hypothesis lt_tie : ∀ a b, lt a b = false → lt b a = false → a = b.

Lemma lt_irrefl a : lt a a = false.
Proof. destruct (lt a a) eqn:E; [|done]. by rewrite (lt_asym a a E) in E. Qed.

Lemma tied_with_eq (key : A → K) k a :
  tied_with lt (λ a, Some (key a)) k a = bool_decide (key a = k).
Proof.
  unfold tied_with. case_bool_decide as Hk.
  - subst k. by rewrite lt_irrefl.
  - destruct (lt (key a) k) eqn:E1; [done|].
    destruct (lt k (key a)) eqn:E2; [done|]. by destruct Hk; apply lt_tie.
Qed.

(** What [sorted] returns for such keys: the elements of the argument,
    in key order, elements with the same key in their order in the
    argument. *)
Lemma sorted_by_spec (key : A → K) (r : bool) (l : list A) :
  sorted_by lt key r l ≡ₚ l
  ∧ StronglySorted
      (λ a b, (if r then lt (key a) (key b) else lt (key b) (key a)) = false)
      (sorted_by lt key r l)
  ∧ ∀ k, List.filter (λ a, bool_decide (key a = k)) (sorted_by lt key r l)
         = List.filter (λ a, bool_decide (key a = k)) l.
Proof.
  destruct (sorted_spec lt (λ _, True) (λ a b _ _, lt_asym a b)
              (λ a b c _ _ _, lt_negtrans a b c)
              (λ a, Some (key a)) r l (sorted_by lt key r l))
    as (Hp & Hs & Ht); [done|apply sorted_by_sorted|].
  split_and!; [done| |].
  - eapply StronglySorted_mono; [|exact Hs].
    intros a b (ka & kb & [= <-] & [= <-] & H). done.
  - intros k. specialize (Ht k I).
    erewrite (List.filter_ext _ (tied_with lt (λ a, Some (key a)) k)).
    + rewrite Ht. apply List.filter_ext. intros a. apply tied_with_eq.
    + intros a. symmetry. apply tied_with_eq.
Qed.

End TotalKeys.

End SortFacts.

(** ** Insertion-ordered dictionaries *)

Module DictFacts.
Import Py.

Section ODict.
Context {V : Type}.
Implicit Types (d : odict V) (k : string) (v : V).

Lemma oget_oset_eq d k v : oget (oset d k v) k = Some v.
Proof.
  induction d as [|[k' v'] d IH]; simpl.
  - by rewrite decide_True.
  - destruct (decide (k' = k)) as [->|Hne]; simpl.
    + by rewrite decide_True.
    + by rewrite decide_False.
Qed.

Lemma oget_oset_ne d k k' v : k' ≠ k → oget (oset d k v) k' = oget d k'.
Proof.
  intros Hne. induction d as [|[k0 v0] d IH]; simpl.
  - by rewrite decide_False.
  - destruct (decide (k0 = k)) as [->|Hk0]; simpl.
    + by rewrite !decide_False.
    + destruct (decide (k0 = k')); [done|apply IH].
Qed.

(** Assigning to a key that is there keeps the keys and their order. *)
Lemma okeys_oset d k v : is_Some (oget d k) → okeys (oset d k v) = okeys d.
Proof.
  unfold okeys. induction d as [|[k' v'] d IH]; simpl.
  - by intros [? [=]].
  - destruct (decide (k' = k)) as [->|Hne]; [done|].
    intros H. rewrite !fmap_cons. by rewrite IH.
Qed.

(** Entry by entry, an assignment changes at most the value under [k]. *)
Lemma oset_Forall2 d k v :
  is_Some (oget d k) →
  Forall2 (λ old new, old.1 = new.1 ∧ (old.1 ≠ k → old = new) ∧ (old ≠ new → new.2 = v))
          d (oset d k v).
Proof.
  induction d as [|[k' v'] d IH]; simpl.
  - by intros [? [=]].
  - destruct (decide (k' = k)) as [->|Hne]; intros H.
    + constructor; [by split_and!|]. apply Forall2_same_length_lookup_2; [done|].
      intros i x y Hx Hy. by simplify_eq.
    + constructor; [by split_and!|by apply IH].
Qed.

Lemma oget_elem_of d k v : oget d k = Some v → (k, v) ∈ d.
Proof.
  induction d as [|[k' v'] d IH]; simpl; [done|].
  destruct (decide (k' = k)) as [->|Hne].
  - intros [= ->]. left.
  - intros H. right. by apply IH.
Qed.

Lemma oget_None_okeys d k : oget d k = None ↔ k ∉ okeys d.
Proof.
  unfold okeys. induction d as [|[k' v'] d IH].
  - split; [intros _; apply not_elem_of_nil|done].
  - rewrite fmap_cons, not_elem_of_cons. cbn [oget fst].
    destruct (decide (k' = k)) as [->|Hne]; [naive_solver|].
    rewrite IH. naive_solver.
Qed.

Lemma okeys_oset_new d k v : oget d k = None → okeys (oset d k v) = okeys d ++ [k].
Proof.
  unfold okeys. induction d as [|[k' v'] d IH]; [done|]. cbn [oget oset].
  destruct (decide (k' = k)) as [->|Hne]; [done|].
  intros H. rewrite !fmap_cons. cbn [fst]. by rewrite IH.
Qed.

(** An assignment keeps every key once. *)
Lemma NoDup_okeys_oset d k v : NoDup (okeys d) → NoDup (okeys (oset d k v)).
Proof.
  intros Hd. destruct (oget d k) as [v0|] eqn:E.
  - rewrite okeys_oset; [done|by eexists].
  - rewrite okeys_oset_new by done.
    apply NoDup_app. split_and!; [done| |apply NoDup_singleton].
    intros x Hx ->%list_elem_of_singleton. by apply oget_None_okeys in E.
Qed.

End ODict.

End DictFacts.

(** ** Roster handlers *)

Module RosterFacts.
Import Py App AppSpec DictFacts.

Lemma elem_of_list_remove (x y : string) l :
  y ∈ list_remove x l → y ∈ l.
Proof.
  induction l as [|z l IH]; simpl; [done|].
  destruct (decide (z = x)); [by right|].
  intros [->|H]%elem_of_cons; [left|right; by apply IH].
Qed.

Lemma length_list_remove (x : string) l :
  x ∈ l → S (length (list_remove x l)) = length l.
Proof.
  induction l as [|z l IH]; simpl; [by intros ?%elem_of_nil|].
  destruct (decide (z = x)) as [->|Hne]; [done|].
  intros [->|H]%elem_of_cons; [done|]. simpl. by rewrite IH.
Qed.

(** C8. Signing up for an unknown activity fails with [ActivityNotFound],
    and signing up an address already on the roster fails with
    [AlreadyRegistered]; both leave the database as it was. A successful
    signup appends exactly that address to the roster of the named
    activity, so the roster is one longer, and the same signup repeated
    fails with [AlreadyRegistered] and changes nothing. Unregistering an
    address that is not on the roster fails with [NotRegistered] and
    leaves the database as it was. *)
Theorem signup_unregister_contract (acts : odict Activity) (activity_name email : string) :
  (oget acts activity_name = None →
     signup_for_activity acts activity_name email = (acts, inl ActivityNotFound))
  ∧ (∀ a, oget acts activity_name = Some a → email ∈ participants a →
     signup_for_activity acts activity_name email = (acts, inl AlreadyRegistered))
  ∧ (∀ a, oget acts activity_name = Some a → email ∉ participants a →
     ∃ acts' msg a',
       signup_for_activity acts activity_name email = (acts', inr msg)
       ∧ oget acts' activity_name = Some a'
       ∧ participants a' = participants a ++ [email]
       ∧ len (participants a') = len (participants a) + 1
       ∧ signup_for_activity acts' activity_name email = (acts', inl AlreadyRegistered))
  ∧ (∀ a, oget acts activity_name = Some a → email ∉ participants a →
     unregister_from_activity acts activity_name email = (acts, inl NotRegistered)).
Proof.
  unfold signup_for_activity, unregister_from_activity. split_and!.
  - by intros ->.
  - intros a -> Hin. by rewrite bool_decide_true.
  - intros a Ha Hnot. rewrite Ha, bool_decide_false by done.
    eexists _, _, _. split_and!; [done|apply oget_oset_eq|done| |].
    + unfold len. simpl. rewrite length_app. simpl. lia.
    + rewrite oget_oset_eq. simpl. rewrite bool_decide_true; [done|].
      apply elem_of_app. right. left.
  - intros a -> Hnot. by rewrite bool_decide_false.
Qed.

(** The contract on the database of the source: a new address joins the
    Chess Club once. *)
Example signup_chess_club :
  let r := signup_for_activity activities "Chess Club" "new@school.edu" in
  (participants <$> oget r.1 "Chess Club")
    = Some ["michael@mergington.edu"; "daniel@mergington.edu"; "new@school.edu"]
  ∧ signup_for_activity r.1 "Chess Club" "new@school.edu" = (r.1, inl AlreadyRegistered)
  ∧ signup_for_activity activities "Robotics" "new@school.edu"
    = (activities, inl ActivityNotFound)
  ∧ unregister_from_activity activities "Chess Club" "new@school.edu"
    = (activities, inl NotRegistered).
Proof. vm_compute. by split_and!. Qed.

Lemma roster_update_frame (acts : odict Activity) k a l :
  oget acts k = Some a →
  let acts' := oset acts k (with_participants a l) in
  okeys acts' = okeys acts
  ∧ (∀ other, other ≠ k → oget acts' other = oget acts other)
  ∧ (∃ a', oget acts' k = Some a' ∧ same_but_participants a a').
Proof.
  intros Ha. split_and!.
  - by apply okeys_oset.
  - intros other Hne. by apply oget_oset_ne.
  - eexists. split; [apply oget_oset_eq|]. by split_and!.
Qed.

Lemma only_roster_changed_refl activity_name acts :
  only_roster_changed activity_name acts acts.
Proof.
  split_and!; [done..|]. intros a ->. eexists. split; [done|]. by split_and!.
Qed.

(** C10. A signup or an unregistration, successful or not, leaves the
    names of the database and their order as they were, leaves every
    activity other than the named one unchanged, and leaves the
    description, schedule, capacity and category of the named activity
    unchanged. *)
Theorem roster_frame (acts : odict Activity) (activity_name email : string) :
  only_roster_changed activity_name acts
    (signup_for_activity acts activity_name email).1
  ∧ only_roster_changed activity_name acts
    (unregister_from_activity acts activity_name email).1.
Proof.
  unfold signup_for_activity, unregister_from_activity.
  destruct (oget acts activity_name) as [a|] eqn:Ha;
    [|split; apply only_roster_changed_refl].
  destruct (bool_decide (email ∈ participants a)); simpl; split;
    try apply only_roster_changed_refl.
  - destruct (roster_update_frame acts activity_name a
                (list_remove email (participants a)) Ha) as (?&?&?).
    split_and!; [done..|]. intros a0 Ha0. by simplify_eq.
  - destruct (roster_update_frame acts activity_name a
                (participants a ++ [email]) Ha) as (?&?&?).
    split_and!; [done..|]. intros a0 Ha0. by simplify_eq.
Qed.

End RosterFacts.

(** ** Strings *)

Module StringFacts.
Import Py.

Lemma isspace_char_lower c : isspace (char_lower c) = isspace c.
Proof. by destruct c as [[] [] [] [] [] [] [] []]. Qed.

Lemma blank_lower s : blank (lower s) = blank s.
Proof.
  unfold blank. induction s as [|c s IH]; [done|].
  simpl. by rewrite isspace_char_lower, IH.
Qed.

Lemma chars_rev_app s1 s2 :
  list_ascii_of_string (String.rev_app s1 s2)
  = rev (list_ascii_of_string s1) ++ list_ascii_of_string s2.
Proof.
  revert s2. induction s1 as [|c s1 IH]; intros s2; [done|].
  simpl. rewrite IH. simpl. by rewrite <- app_assoc.
Qed.

Lemma chars_rev s :
  list_ascii_of_string (String.rev s) = rev (list_ascii_of_string s).
Proof. unfold String.rev. rewrite chars_rev_app. simpl. apply app_nil_r. Qed.

Lemma blank_rev s : blank (String.rev s) = blank s.
Proof.
  unfold blank. rewrite chars_rev.
  apply eq_true_iff_eq. rewrite !forallb_forall.
  split; intros H x Hx; apply H; [by apply in_rev in Hx|by apply in_rev].
Qed.

Lemma lstrip_empty s : lstrip s = EmptyString ↔ blank s = true.
Proof.
  unfold blank. induction s as [|c s IH]; simpl; [done|].
  destruct (isspace c); simpl; [done|]. split; intros; discriminate.
Qed.

Lemma blank_lstrip s : blank (lstrip s) = blank s.
Proof.
  unfold blank. induction s as [|c s IH]; [done|].
  simpl. destruct (isspace c) eqn:E; simpl; [done|]. by rewrite E.
Qed.

Lemma rev_empty s : String.rev s = EmptyString ↔ s = EmptyString.
Proof.
  split; [|by intros ->]. intros H.
  apply (f_equal list_ascii_of_string) in H. rewrite chars_rev in H. simpl in H.
  destruct s as [|c s]; [done|]. simpl in H. by destruct (rev _).
Qed.

(** The test [not query.strip()] of the engine holds exactly for a blank
    query. *)
Lemma strip_empty s : strip s = EmptyString ↔ blank s = true.
Proof.
  unfold strip, rstrip.
  rewrite rev_empty, lstrip_empty, blank_rev. by rewrite blank_lstrip.
Qed.

Lemma strip_blank_decide s : bool_decide (strip s = EmptyString) = blank s.
Proof.
  destruct (blank s) eqn:E.
  - apply bool_decide_eq_true, strip_empty, E.
  - apply bool_decide_eq_false. rewrite strip_empty. congruence.
Qed.

Lemma split_go_nonempty cur s :
  cur ≠ EmptyString ∨ blank s = false → split_go cur s ≠ [].
Proof.
  revert cur. induction s as [|c s IH]; intros cur H; simpl.
  - destruct H as [H|H]; [|done]. by rewrite decide_False.
  - unfold blank in H. simpl in H. destruct (isspace c) eqn:E; simpl in H.
    + destruct (decide (cur = EmptyString)) as [->|Hne]; [|done].
      simpl. apply IH. right. by destruct H.
    + apply IH. by left.
Qed.

(** A query that is not blank has at least one term. *)
Lemma split_lower_nonempty q : blank q = false → split (lower q) ≠ [].
Proof.
  intros H. apply split_go_nonempty. right. by rewrite blank_lower.
Qed.

(** [str_ltb] is a strict weak order. *)
Lemma str_ltb_leb a b : str_ltb a b = negb (String.leb b a).
Proof.
  unfold str_ltb, String.ltb, String.leb.
  rewrite (String.compare_antisym b a). by destruct (String.compare a b).
Qed.

Lemma str_ltb_asym a b : str_ltb a b = true → str_ltb b a = false.
Proof.
  unfold str_ltb, String.ltb. rewrite (String.compare_antisym a b).
  by destruct (String.compare b a).
Qed.

Lemma str_ltb_tie a b : str_ltb a b = false → str_ltb b a = false → a = b.
Proof.
  unfold str_ltb, String.ltb. rewrite (String.compare_antisym a b).
  destruct (String.compare b a) eqn:E; simpl; try done.
  intros _ _. symmetry. by apply String.compare_eq_iff.
Qed.

Lemma str_ltb_negtrans a b c :
  str_ltb a b = false → str_ltb b c = false → str_ltb a c = false.
Proof.
  rewrite !str_ltb_leb, !negb_false_iff. intros H1 H2.
  apply Is_true_true. apply Is_true_true in H1, H2.
  by apply (transitivity (R:=String.le) (y:=b)).
Qed.

End StringFacts.

(** ** The recent-search list *)

Module RecentFacts.
Import Py SearchEngine SearchSpec StringFacts.

Lemma search_recent e q f :
  recent_searches (search e q f).1
  = if blank q then recent_searches e
    else take 10 (q :: (if bool_decide (q ∈ recent_searches e)
                        then list_remove q (recent_searches e)
                        else recent_searches e)).
Proof.
  unfold search. rewrite strip_blank_decide. by destruct (blank q).
Qed.

Lemma filter_ne_id (x : string) (l : list string) : x ∉ l → filter (λ y, y ≠ x) l = l.
Proof.
  induction l as [|y l IH]; [done|].
  intros [Hne Hl]%not_elem_of_cons.
  rewrite filter_cons_True by done. by rewrite IH.
Qed.

(** On a list without repetition, [list.remove] removes every occurrence. *)
Lemma list_remove_filter (x : string) (l : list string) :
  NoDup l → list_remove x l = filter (λ y, y ≠ x) l.
Proof.
  induction 1 as [|y l Hy Hl IH]; [done|]. simpl.
  destruct (decide (y = x)) as [->|Hne].
  - rewrite filter_cons_False by naive_solver. by rewrite filter_ne_id.
  - rewrite filter_cons_True by done. by rewrite IH.
Qed.

Lemma remove_if_present (x : string) (l : list string) :
  NoDup l →
  (if bool_decide (x ∈ l) then list_remove x l else l) = filter (λ y, y ≠ x) l.
Proof.
  intros Hl. case_bool_decide.
  - by apply list_remove_filter.
  - by rewrite filter_ne_id.
Qed.

Lemma elem_of_take_elem_of (x : string) n (l : list string) :
  x ∈ take n l → x ∈ l.
Proof.
  intros (i & Hi & _)%elem_of_take. by eapply list_elem_of_lookup_2.
Qed.

Lemma take_filter_take (q : string) n (l : list string) :
  NoDup l →
  take n (filter (λ y, y ≠ q) (take (S n) l)) = take n (filter (λ y, y ≠ q) l).
Proof.
  intros Hl. revert n. induction Hl as [|x l Hx Hl IH]; intros n; [done|].
  cbn [take]. destruct (decide (x = q)) as [->|Hne].
  - rewrite !filter_cons_False by naive_solver.
    rewrite !filter_ne_id; [|done|].
    + rewrite take_take. f_equal. lia.
    + intros Hin. apply Hx. by eapply elem_of_take_elem_of.
  - rewrite !filter_cons_True by done.
    destruct n as [|n]; [done|]. cbn [take]. by rewrite IH.
Qed.

Lemma elem_of_distinct (x : string) (l : list string) : x ∈ distinct l ↔ x ∈ l.
Proof.
  induction l as [|y l IH]; [done|]. simpl.
  rewrite !elem_of_cons, list_elem_of_filter, IH.
  destruct (decide (x = y)); naive_solver.
Qed.

Lemma NoDup_distinct l : NoDup (distinct l).
Proof.
  induction l as [|x l IH]; simpl; constructor.
  - rewrite list_elem_of_filter. naive_solver.
  - by apply NoDup_filter.
Qed.

Lemma NoDup_take_distinct n l : NoDup (take n (distinct l)).
Proof.
  apply (sublist_NoDup _ (distinct l)); [apply NoDup_distinct|apply sublist_take].
Qed.

(** One recorded query: it goes to the front, its older copy goes, and
    the list is cut to ten. *)
Lemma record_step (q : string) (hist : list string) :
  let r := take 10 (distinct hist) in
  take 10 (q :: (if bool_decide (q ∈ r) then list_remove q r else r))
  = take 10 (distinct (q :: hist)).
Proof.
  intros r. rewrite remove_if_present by apply NoDup_take_distinct.
  subst r. cbn [distinct take]. f_equal.
  apply (take_filter_take q 9), NoDup_distinct.
Qed.

Lemma recorded_cons q f calls :
  recorded ((q, f) :: calls) = if blank q then recorded calls else q :: recorded calls.
Proof.
  unfold recorded. rewrite fmap_cons. simpl.
  destruct (blank q) eqn:E.
  - by rewrite filter_cons_False by (simpl; congruence).
  - by rewrite filter_cons_True.
Qed.

(** The list after a run of calls, from the queries recorded before
    ([hist], oldest first) and during the run. *)
Lemma run_searches_recent calls e hist :
  recent_searches e = take 10 (distinct (rev hist)) →
  recent_searches (run_searches e calls)
  = take 10 (distinct (rev (hist ++ recorded calls))).
Proof.
  revert e hist. induction calls as [|[q f] calls IH]; intros e hist He.
  - simpl. unfold recorded. simpl. by rewrite app_nil_r.
  - cbn [run_searches]. rewrite recorded_cons.
    destruct (blank q) eqn:E.
    + apply IH. by rewrite search_recent, E.
    + rewrite (IH _ (hist ++ [q])).
      * by rewrite <- app_assoc.
      * rewrite search_recent, E, He, rev_app_distr. apply record_step.
Qed.

(** C4. After any sequence of [search] calls on a new engine, the
    recent-search list has at most ten entries and no entry twice, and it
    is ordered most recent first: it holds the ten most recently searched
    distinct queries among the recorded ones, the latest at the front.
    Searching once more for a query that is in the list moves it to the
    front: the list keeps its length, the query is at the front and the
    other entries follow in their order, so the query is there once. *)
Theorem recent_searches_invariant
    (acts : list activity) (idx : odict (gset key))
    (calls : list (string * option (gmap string value))) :
  let e := run_searches (mk acts idx []) calls in
  (length (recent_searches e) ≤ 10)%nat
  ∧ NoDup (recent_searches e)
  ∧ recent_searches e = take 10 (distinct (rev (recorded calls)))
  ∧ ∀ q f, q ∈ recent_searches e →
      let e' := (search e q f).1 in
      recent_searches e' = q :: filter (λ y, y ≠ q) (recent_searches e)
      ∧ length (recent_searches e') = length (recent_searches e)
      ∧ NoDup (recent_searches e').
Proof.
  intros e.
  assert (recent_searches e = take 10 (distinct (rev (recorded calls)))) as Hr.
  { apply (run_searches_recent calls (mk acts idx []) []). done. }
  assert (NoDup (recent_searches e)) as Hnd.
  { rewrite Hr. apply NoDup_take_distinct. }
  assert (length (recent_searches e) ≤ 10)%nat as Hlen.
  { rewrite Hr, length_take. lia. }
  split_and!; [done..|].
  intros q f Hq e'.
  assert (blank q = false) as Hb.
  { rewrite Hr in Hq. apply elem_of_take_elem_of in Hq.
    apply (proj1 (elem_of_distinct _ _)) in Hq.
    apply list_elem_of_In, in_rev, list_elem_of_In in Hq.
    unfold recorded in Hq. by apply list_elem_of_filter in Hq as [? _]. }
  assert (length (filter (λ y, y ≠ q) (recent_searches e))
          < length (recent_searches e))%nat as Hlt.
  { apply (length_filter_lt _ _ q); [done|naive_solver]. }
  assert (recent_searches e' = q :: filter (λ y, y ≠ q) (recent_searches e)) as He'.
  { subst e'. rewrite search_recent, Hb, remove_if_present by done.
    apply take_ge. simpl. lia. }
  split_and!; [done| |].
  - rewrite He'. simpl.
    rewrite <- (list_remove_filter q) by done.
    apply RosterFacts.length_list_remove, Hq.
  - rewrite He'. constructor; [|by apply NoDup_filter].
    rewrite list_elem_of_filter. naive_solver.
Qed.

(** The example of the specification: "math", "chess", "math" again. *)
Example recent_math_chess_math :
  recent_searches
    (run_searches init [("math", None); ("chess", None); ("math", None)])
  = ["math"; "chess"].
Proof. reflexivity. Qed.

End RecentFacts.

(** ** Searching and filtering *)

Module SearchFacts.
Import Py SearchEngine SearchSpec StringFacts SortFacts.

(** *** Filters *)

Lemma filter_opt_Some {A} (p : A → option bool) l res :
  filter_opt p l = Some res →
  res = List.filter (λ a, default false (p a)) l
  ∧ Forall (λ a, is_Some (p a)) l.
Proof.
  revert res. induction l as [|a l IH]; intros res; simpl.
  - intros [= <-]. by split.
  - destruct (p a) as [b|] eqn:Ep; simpl; [|done].
    destruct (filter_opt p l) as [r|]; simpl; [|done].
    intros [= <-]. destruct (IH r eq_refl) as [-> Hf].
    split; [done|]. constructor; [by rewrite Ep|done].
Qed.

Lemma filter_opt_total {A} (p : A → option bool) l :
  Forall (λ a, is_Some (p a)) l →
  filter_opt p l = Some (List.filter (λ a, default false (p a)) l).
Proof.
  induction 1 as [|a l [b Hb] Hl IH]; [done|].
  simpl. rewrite Hb, IH. simpl. by destruct b.
Qed.

Lemma filter_filter_and {A} (p1 p2 : A → bool) l :
  List.filter p2 (List.filter p1 l) = List.filter (λ a, p1 a && p2 a) l.
Proof.
  induction l as [|a l IH]; [done|]. simpl.
  destruct (p1 a); simpl; [|done]. destruct (p2 a); by rewrite IH.
Qed.

Lemma filter_true {A} (l : list A) : List.filter (λ _, true) l = l.
Proof. induction l as [|a l IH]; [done|]. simpl. by rewrite IH. Qed.

Lemma filter_criterion filters k field l :
  match filters !! k with
  | Some v => List.filter (λ a, eq (get a field) v) l
  | None => l
  end = List.filter (criterion filters k field) l.
Proof.
  unfold criterion. destruct (filters !! k); [done|]. by rewrite filter_true.
Qed.

(** [_apply_filters], when it returns, returns the activities that pass
    every active criterion, in their order. *)
Lemma apply_filters_Some acts filters res :
  apply_filters acts filters = Some res → res = List.filter (matches filters) acts.
Proof.
  unfold apply_filters.
  rewrite (filter_criterion filters "category" "category").
  rewrite (filter_criterion filters "availability" "available").
  rewrite (filter_criterion filters "schedule" "schedule").
  rewrite !filter_filter_and. unfold matches.
  destruct (filters !! "min_popularity") as [m|] eqn:Em.
  - intros [-> _]%filter_opt_Some. rewrite filter_filter_and.
    apply List.filter_ext. intros a. unfold popular_enough.
    by rewrite Em, !andb_assoc.
  - intros [= <-]. apply List.filter_ext. intros a.
    unfold popular_enough. rewrite Em. simpl. by rewrite andb_true_r, !andb_assoc.
Qed.


Lemma filter_sublist {A} (p : A → bool) (l : list A) : List.filter p l `sublist_of` l.
Proof.
  induction l as [|a l IH]; [done|]. simpl.
  destruct (p a); by constructor.
Qed.

(** *** The blank query *)

Lemma search_blank e q filters :
  blank q = true →
  search e q filters
  = (e, match given filters with
        | Some f => filter_activities e f
        | None => Some (activities e)
        end).
Proof. intros H. unfold search. by rewrite strip_blank_decide, H. Qed.

Lemma filter_activities_empty e : filter_activities e ∅ = Some (activities e).
Proof. done. Qed.

(** C3. For a blank query (empty or white space only) and any filter
    map, [search] returns what [filter_activities] returns for that map
    on the whole catalogue (the same list, or the same exception), a
    sublist of the catalogue in catalogue order; without filters it
    returns the catalogue itself. In both cases the state of the engine,
    and so the recent-search list, is left as it was. *)
Theorem blank_search_is_filter (e : t) (q : string) (filters : gmap string value) :
  blank q = true →
  search e q (Some filters) = (e, filter_activities e filters)
  ∧ (∀ res, filter_activities e filters = Some res → res `sublist_of` activities e)
  ∧ search e q None = (e, Some (activities e))
  ∧ recent_searches (search e q (Some filters)).1 = recent_searches e
  ∧ recent_searches (search e q None).1 = recent_searches e.
Proof.
  intros Hq. rewrite !search_blank by done. simpl.
  split_and!; [|intros res ->%apply_filters_Some; apply filter_sublist|done..].
  case_bool_decide as Hf; [|done]. by rewrite Hf, filter_activities_empty.
Qed.

Lemma blank_search_is_filter_witness :
  search Samples.sample_engine "   " (Some {["category" := VStr "Academic"]})
  = (Samples.sample_engine,
     filter_activities Samples.sample_engine {["category" := VStr "Academic"]}).
Proof.
  apply (blank_search_is_filter Samples.sample_engine "   "
           {["category" := VStr "Academic"]}).
  reflexivity.
Defined.

(** On the sample catalogue the blank query with a category filter keeps
    the two academic activities, in catalogue order. *)
Example blank_search_academic :
  fmap (M:=list) (λ a, get a "name")
    <$> (search Samples.sample_engine "   " (Some {["category" := VStr "Academic"]})).2
  = Some [VStr "Chess Club"; VStr "Strategy Lab"].
Proof. vm_compute. reflexivity. Qed.

(** *** Candidates *)

Lemma search_nonblank e q filters :
  blank q = false →
  search e q filters
  = (add_recent_search e q, s ← surviving e q filters; rank_results s q).
Proof.
  intros H. unfold search. rewrite strip_blank_decide, H.
  unfold surviving, candidates. f_equal.
  destruct (filter_opt _ _) as [r|]; simpl; [|done].
  by destruct (given filters).
Qed.

Lemma foldl_intersection (e : t) (s0 : gset key) rest k :
  k ∈ foldl (λ m word, m ∩ default ∅ (oget (search_index e) word)) s0 rest
  ↔ k ∈ s0 ∧ ∀ w, w ∈ rest → k ∈ posting e w.
Proof.
  revert s0. induction rest as [|w rest IH]; intros s0; simpl.
  - split; [|naive_solver]. intros H. split; [done|]. by intros w ?%elem_of_nil.
  - rewrite IH, elem_of_intersection. unfold posting. split.
    + intros [[H0 Hw] Hr]. split; [done|].
      intros w' [->|?]%elem_of_cons; [done|by apply Hr].
    + intros [H0 Hr]. split_and!; [done|apply Hr; left|].
      intros w' ?. apply Hr. by right.
Qed.

(** [_find_matching_ids] returns the intersection of the posting sets. *)
Lemma find_matching_ids_spec (e : t) (terms : list string) k :
  terms ≠ [] →
  k ∈ find_matching_ids e terms ↔ ∀ w, w ∈ terms → k ∈ posting e w.
Proof.
  destruct terms as [|w rest]; [done|]. intros _. simpl.
  rewrite foldl_intersection. fold (posting e w). split.
  - intros [H0 Hr] w' [->|?]%elem_of_cons; [done|by apply Hr].
  - intros H. split; [apply H; left|]. intros w' ?. apply H. by right.
Qed.

Lemma rank_results_perm results q res :
  rank_results results q = Some res → res ≡ₚ results.
Proof.
  unfold rank_results, sorted.
  destruct (decorate _ _) as [d|] eqn:Ed; simpl; [|done]. intros [= <-].
  apply decorate_spec in Ed as [<- _].
  apply fmap_Permutation, (sort_decorated_perm PrimFloat.ltb true).
Qed.

Lemma surviving_spec e q filters s :
  surviving e q filters = Some s →
  ∃ cands,
    cands = List.filter (λ a, default false (in_set (get a "id") (candidates e q)))
              (activities e)
    ∧ Forall (λ a, is_Some (hashable (get a "id"))) (activities e)
    ∧ s = match given filters with
          | Some f => List.filter (matches f) cands
          | None => cands
          end.
Proof.
  unfold surviving.
  destruct (filter_opt _ _) as [r|] eqn:Er; simpl; [|done].
  apply filter_opt_Some in Er as [-> Hh]. intros Hs. eexists. split_and!; [done| |].
  - eapply Forall_impl; [exact Hh|]. intros a [b Hb]. unfold in_set in Hb.
    by destruct (hashable _); [eexists|].
  - destruct (given filters); [by apply apply_filters_Some in Hs|by simplify_eq].
Qed.

Lemma in_set_true v (s : gset key) :
  default false (in_set v s) = true ↔ ∃ k, hashable v = Some k ∧ k ∈ s.
Proof.
  unfold in_set. destruct (hashable v) as [k|]; simpl.
  - rewrite bool_decide_eq_true. naive_solver.
  - naive_solver.
Qed.

Lemma apply_filters_nil filters : apply_filters [] filters = Some [].
Proof.
  unfold apply_filters.
  by destruct (filters !! "category"), (filters !! "availability"),
    (filters !! "schedule"), (filters !! "min_popularity").
Qed.

Lemma filter_in_empty (l : list activity) :
  List.filter (λ a, default false (in_set (get a "id") ∅)) l = [].
Proof.
  induction l as [|a l IH]; [done|]. simpl.
  unfold in_set at 1. destruct (hashable (get a "id")); simpl; [|apply IH].
  rewrite bool_decide_false by set_solver. apply IH.
Qed.

Lemma search_results_candidates e q filters res a :
  blank q = false → (search e q filters).2 = Some res → a ∈ res →
  a ∈ activities e ∧ ∃ k, hashable (get a "id") = Some k ∧ k ∈ candidates e q.
Proof.
  intros Hq Hres Ha. rewrite search_nonblank in Hres by done. simpl in Hres.
  destruct (surviving e q filters) as [s|] eqn:Es; simpl in Hres; [|done].
  apply rank_results_perm in Hres. rewrite Hres in Ha.
  apply surviving_spec in Es as (cands & -> & _ & ->).
  assert (a ∈ List.filter (λ a, default false (in_set (get a "id") (candidates e q)))
                (activities e)) as Hin.
  { destruct (given filters); [|done].
    apply list_elem_of_In, List.filter_In in Ha as [Ha _]. by apply list_elem_of_In. }
  apply list_elem_of_In, List.filter_In in Hin as [Hin Hc].
  split; [by apply list_elem_of_In|]. by apply in_set_true.
Qed.

(** C2. For a query that is not blank, the lower-cased query has at
    least one term, and the candidate set is the intersection of the
    posting sets of its terms, a term outside the index having the empty
    posting set. Every activity that [search] returns is an activity of
    the catalogue whose identifier is in the candidate set, and without
    filters the call returns exactly the activities with an identifier in
    the candidate set. If some term has no posting set, the candidate set
    is empty and, the identifiers of the catalogue being hashable, the call
    returns no result. An empty list of terms gives the empty candidate
    set. *)
Theorem candidates_are_intersection
    (e : t) (q : string) (filters : option (gmap string value)) :
  blank q = false →
  split (lower q) ≠ []
  ∧ (∀ k, k ∈ candidates e q ↔ ∀ w, w ∈ split (lower q) → k ∈ posting e w)
  ∧ (∀ res a, (search e q filters).2 = Some res → a ∈ res →
       a ∈ activities e
       ∧ ∃ k, hashable (get a "id") = Some k ∧ k ∈ candidates e q)
  ∧ (∀ res, (search e q None).2 = Some res →
       res ≡ₚ List.filter (λ a, default false (in_set (get a "id") (candidates e q)))
                (activities e))
  ∧ ((∃ w, w ∈ split (lower q) ∧ oget (search_index e) w = None) →
       candidates e q = ∅
       ∧ (Forall (λ a, is_Some (hashable (get a "id"))) (activities e) →
          (search e q filters).2 = Some []))
  ∧ find_matching_ids e [] = ∅.
Proof.
  intros Hq. pose proof (split_lower_nonempty q Hq) as Hne.
  split_and!; [done|intros k; by apply find_matching_ids_spec| | | |done].
  - intros res a Hres Ha. by apply (search_results_candidates e q filters res a).
  - intros res Hres. rewrite search_nonblank in Hres by done. simpl in Hres.
    destruct (surviving e q None) as [s|] eqn:Es; simpl in Hres; [|done].
    apply rank_results_perm in Hres. rewrite Hres.
    by apply surviving_spec in Es as (cands & -> & _ & ->).
  - intros (w & Hw & Hnone).
    assert (candidates e q = ∅) as Hc.
    { apply set_eq. intros k. unfold candidates.
      rewrite find_matching_ids_spec by done. split; [|set_solver].
      intros H. specialize (H w Hw). unfold posting in H. by rewrite Hnone in H. }
    split; [done|]. intros Hh. rewrite search_nonblank by done. simpl.
    unfold surviving. rewrite Hc, filter_opt_total.
    + rewrite filter_in_empty. simpl.
      destruct (given filters); simpl; [|done]. by rewrite apply_filters_nil.
    + eapply Forall_impl; [exact Hh|]. intros a [k Hk]. unfold in_set.
      rewrite Hk. by eexists.
Qed.

Lemma candidates_are_intersection_witness :
  (search Samples.sample_engine "xyzzy" None).2 = Some [].
Proof.
  destruct (candidates_are_intersection Samples.sample_engine "xyzzy" None eq_refl)
    as (_ & _ & _ & _ & H & _).
  apply H.
  - exists "xyzzy". split; [left|reflexivity].
  - repeat constructor; by eexists.
Defined.

(** The terms of a query are combined with "and": on the sample
    catalogue both "chess" and "club" index the first record only. *)
Example search_chess_club :
  fmap (M:=list) (λ a, get a "name") <$> (search Samples.sample_engine "Chess  club" None).2
  = Some [VStr "Chess Club"].
Proof. vm_compute. reflexivity. Qed.

(** *** Results and filters *)


Lemma search_results_in_catalog e q filters res a :
  (search e q filters).2 = Some res → a ∈ res → a ∈ activities e.
Proof.
  intros Hres Ha. destruct (blank q) eqn:Hq.
  - rewrite search_blank in Hres by done. simpl in Hres.
    destruct (given filters); [|by simplify_eq].
    apply apply_filters_Some in Hres as ->.
    apply list_elem_of_In, List.filter_In in Ha as [Ha _]. by apply list_elem_of_In.
  - by eapply (search_results_candidates e q filters res a Hq).
Qed.

End SearchFacts.

(** ** The HTTP search handler *)

Module AppFacts.
Import Py App AppSpec StringFacts SortFacts.

Lemma Z_ltb_asym (a b : Z) : (a <? b) = true → (b <? a) = false.
Proof. lia. Qed.

Lemma Z_ltb_negtrans (a b c : Z) : (a <? b) = false → (b <? c) = false → (a <? c) = false.
Proof. lia. Qed.

Lemma Z_ltb_tie (a b : Z) : (a <? b) = false → (b <? a) = false → a = b.
Proof. lia. Qed.

Lemma sort_results_perm sort_by (rs : odict Activity) : sort_results sort_by rs ≡ₚ rs.
Proof.
  destruct sort_by as [[]|]; simpl; [| | |done].
  - apply (sorted_by_spec str_ltb str_ltb_asym str_ltb_negtrans str_ltb_tie).
  - apply (sorted_by_spec Z.ltb Z_ltb_asym Z_ltb_negtrans Z_ltb_tie).
  - apply (sorted_by_spec Z.ltb Z_ltb_asym Z_ltb_negtrans Z_ltb_tie).
Qed.

(** An entry that [search_activities] keeps passes every criterion that
    is active. *)
Lemma include_criteria q category available day activity_name activity_data :
  include q category available day activity_name activity_data = true →
  (∀ s, nonempty q = Some s →
     contains (lower s) (lower activity_name)
     || contains (lower s) (lower (description activity_data)) = true)
  ∧ (∀ c, nonempty category = Some c →
       lower (default EmptyString (App.category activity_data)) = lower c)
  ∧ (∀ b, available = Some b →
       b = (len (participants activity_data) <? max_participants activity_data))
  ∧ (∀ d, nonempty day = Some d →
       contains (lower d) (lower (schedule activity_data)) = true).
Proof.
  unfold include. intros H. split_and!.
  - intros s Hs. rewrite Hs in H.
    destruct (contains (lower s) (lower activity_name)); [done|].
    destruct (contains (lower s) (lower (description activity_data))); [done|].
    simpl in H. by repeat case_match.
  - intros c Hc. rewrite Hc in H.
    destruct (decide (lower (default EmptyString (App.category activity_data)) = lower c))
      as [|Hne]; [done|].
    rewrite (bool_decide_true _ Hne) in H. by repeat case_match.
  - intros b ->.
    destruct (Bool.eqb b (len (participants activity_data) <? max_participants activity_data))
      eqn:E; [by apply Bool.eqb_prop|].
    simpl in H. by repeat case_match.
  - intros d Hd. rewrite Hd in H.
    destruct (contains (lower d) (lower (schedule activity_data))); [done|].
    simpl in H. by repeat case_match.
Qed.


(** C6. [search_activities] answers with the kept entries ordered by the
    sort key. With [name] the entries are in ascending order of the
    lower-cased name; with [participants] in descending order of the
    length of the roster; with [availability] in descending order of the
    free places (capacity minus length of the roster). In each case the
    answer holds the kept entries, and entries with the same key are in
    their order in the database. In particular "art Club" comes before
    "Basketball Team" under [name], and on the database of the source
    "GitHub Skills" (25 free places) comes before "Chess Club" (10 free
    places) under [availability]. *)
Theorem explicit_sort_orders
    (acts : odict Activity) (q category : option string) (available : option bool)
    (day : option string) :
  let kept := List.filter (λ x, include q category available day x.1 x.2) acts in
  let sorted_with k := results (search_activities acts q category available (Some k) day) in
  (∀ k, sorted_with k ≡ₚ kept)
  ∧ StronglySorted (λ x y, str_ltb (lower y.1) (lower x.1) = false) (sorted_with SortBy.name)
  ∧ (∀ n, List.filter (λ x, bool_decide (lower x.1 = n)) (sorted_with SortBy.name)
          = List.filter (λ x, bool_decide (lower x.1 = n)) kept)
  ∧ StronglySorted (λ x y, len (participants y.2) ≤ len (participants x.2))
      (sorted_with SortBy.participants)
  ∧ (∀ n, List.filter (λ x, bool_decide (len (participants x.2) = n))
            (sorted_with SortBy.participants)
          = List.filter (λ x, bool_decide (len (participants x.2) = n)) kept)
  ∧ StronglySorted (λ x y, free_places y ≤ free_places x) (sorted_with SortBy.availability)
  ∧ (∀ n, List.filter (λ x, bool_decide (free_places x = n)) (sorted_with SortBy.availability)
          = List.filter (λ x, bool_decide (free_places x = n)) kept)
  ∧ okeys (results (search_activities
                      [("Basketball Team", mkActivity "" "" 15 [] None);
                       ("art Club", mkActivity "" "" 15 [] None)]
                      None None None (Some SortBy.name) None))
    = ["art Club"; "Basketball Team"]
  ∧ okeys (results (search_activities activities None None None
                      (Some SortBy.availability) None))
    = ["Gym Class"; "GitHub Skills"; "Soccer Team"; "Programming Class";
       "Drama Club"; "Basketball Team"; "Art Club"; "Chess Club";
       "Debate Team"; "Math Club"].
Proof.
  intros kept sorted_with.
  pose proof (sorted_by_spec str_ltb str_ltb_asym str_ltb_negtrans str_ltb_tie
                (λ x : string * Activity, lower x.1) false kept) as (_ & Hn & Hnt).
  pose proof (sorted_by_spec Z.ltb Z_ltb_asym Z_ltb_negtrans Z_ltb_tie
                (λ x : string * Activity, len (participants x.2)) true kept)
    as (_ & Hp & Hpt).
  pose proof (sorted_by_spec Z.ltb Z_ltb_asym Z_ltb_negtrans Z_ltb_tie
                free_places true kept) as (_ & Ha & Hat).
  split_and!; [|done|done| |done| |done|by vm_compute|by vm_compute].
  - intros k. apply sort_results_perm.
  - eapply StronglySorted_mono; [|exact Hp]. simpl. intros x y H. lia.
  - eapply StronglySorted_mono; [|exact Ha]. simpl. intros x y H. lia.
Qed.

End AppFacts.

(** ** Results satisfy the filters *)

Module FilterFacts.
Import Py SearchSpec Samples StringFacts SortFacts SearchFacts AppFacts.



End FilterFacts.

(** ** Suggestions *)

Module SuggestionFacts.
Import Py SearchEngine DictFacts.

(** [index_activity] keeps every word of the index once, so the index of
    an engine that was filled by [index_activity] has no word twice. *)
Lemma index_activity_NoDup (e : t) (a : activity) :
  NoDup (okeys (search_index e)) →
  NoDup (okeys (search_index (index_activity e a).1)).
Proof.
  intros He. unfold index_activity.
  destruct (create_searchable_text a) as [text|]; [|done].
  destruct (hashable (get a "id")) as [k|].
  - simpl. generalize (split (lower text)). intros words.
    revert He. generalize (search_index e). intros idx He.
    revert idx He. induction words as [|w words IH]; intros idx He; [done|].
    simpl. apply IH. by apply NoDup_okeys_oset.
  - destruct (split (lower text)) as [|w ws]; [done|]. simpl.
    destruct (oget (search_index e) w); [done|]. by apply NoDup_okeys_oset.
Qed.

(** The loop over the indexed words, started from the suggestions [base]
    taken from the recent searches, with [acc] appended so far. *)
Lemma suggestions_fold (partial_lower : string) (base acc words : list string) :
  NoDup words → (∀ w, w ∈ words → w ∉ acc) →
  foldl (λ sugg word,
           if startswith word partial_lower && negb (bool_decide (word ∈ sugg))
           then sugg ++ [word] else sugg)
        (base ++ acc) words
  = base ++ acc
    ++ List.filter (λ w, startswith w partial_lower && negb (bool_decide (w ∈ base)))
         words.
Proof.
  intros Hnd. revert acc. induction Hnd as [|w words Hw Hnd IH]; intros acc Hacc.
  - simpl. by rewrite app_nil_r.
  - cbn [foldl List.filter].
    assert (w ∉ acc) as Hwacc by (apply Hacc; left).
    assert (bool_decide (w ∈ base ++ acc) = bool_decide (w ∈ base)) as ->.
    { apply bool_decide_ext. rewrite elem_of_app. naive_solver. }
    destruct (startswith w partial_lower && negb (bool_decide (w ∈ base))) eqn:E.
    + rewrite <- app_assoc, (IH (acc ++ [w])).
      * by rewrite <- !app_assoc.
      * intros w' Hw' [Hin|Hin]%elem_of_app.
        -- apply (Hacc w'); [by right|done].
        -- apply list_elem_of_singleton in Hin as ->. done.
    + apply IH. intros w' Hw'. apply Hacc. by right.
Qed.

(** C9. For the empty partial query, [get_suggestions] returns the first
    five recent searches, in their order (most recent first). For
    another partial query it returns the first five entries of: the
    recent searches whose lower-cased text contains the lower-cased
    partial query, in their order, followed by the words of the index
    that start with the lower-cased partial query and are not among
    those recent searches, in the order of the index. *)
Theorem suggestions_recent_then_indexed (e : t) (partial_query : string) :
  (length (get_suggestions e partial_query) ≤ 5)%nat
  ∧ (partial_query = EmptyString →
       get_suggestions e partial_query = take 5 (recent_searches e))
  ∧ (partial_query ≠ EmptyString → NoDup (okeys (search_index e)) →
       let from_recent :=
         List.filter (λ s, contains (lower partial_query) (lower s)) (recent_searches e) in
       let from_index :=
         List.filter (λ w, startswith w (lower partial_query)
                           && negb (bool_decide (w ∈ from_recent)))
           (okeys (search_index e)) in
       get_suggestions e partial_query = take 5 (from_recent ++ from_index)).
Proof.
  unfold get_suggestions. split_and!.
  - case_bool_decide; rewrite length_take; lia.
  - intros ->. done.
  - intros Hne Hnd. rewrite bool_decide_false by done. simpl. f_equal.
    pose proof (suggestions_fold (lower partial_query)
      (List.filter (λ s, contains (lower partial_query) (lower s)) (recent_searches e))
      [] (okeys (search_index e)) Hnd) as H.
    rewrite app_nil_r in H. rewrite H; [done|].
    intros w _. apply not_elem_of_nil.
Qed.

(** On the sample catalogue, after searching "Chess" and then
    "art club": the recent searches that contain "c" come first, then the
    indexed words that start with "c". *)
Example suggestions_for_c :
  get_suggestions
    (SearchSpec.run_searches Samples.sample_engine [("Chess", None); ("art club", None)])
    "C"
  = ["art club"; "Chess"; "chess"; "club"].
Proof. vm_compute. reflexivity. Qed.

End SuggestionFacts.

(** ** Filter validation *)

Module ValidationFacts.
Import Py FilterManager.


(** [validate_filters] returns when the category and the schedule of the
    filter map, if any, are hashable. *)
Lemma validate_filters_returns (fm : t) (filters : gmap string value) :
  (∀ c, filters !! "category" = Some c → is_Some (hashable c)) →
  (∀ s, filters !! "schedule" = Some s → is_Some (hashable s)) →
  is_Some (validate_filters fm filters).
Proof.
  intros Hc Hs. unfold validate_filters, in_set.
  destruct (filters !! "category") as [c|]; simpl.
  - destruct (Hc c eq_refl) as [k ->]. simpl.
    destruct (filters !! "schedule") as [s|]; simpl; [|by eexists].
    destruct (Hs s eq_refl) as [k' ->]. by eexists.
  - destruct (filters !! "schedule") as [s|]; simpl; [|by eexists].
    destruct (Hs s eq_refl) as [k' ->]. by eexists.
Qed.

(** C7. [validate_filters] raises on a filter map whose category is a
    list: the membership test in [available_categories] hashes the value,
    and a list is unhashable. The exception is not caught, so an invalid
    category of this kind is reported instead of being left out. *)
Theorem validate_filters_raises_on_list_category
    (fm : t) (filters : gmap string value) (l : list string) :
  filters !! "category" = Some (VList l) → validate_filters fm filters = None.
Proof.
  intros H. unfold validate_filters. rewrite H. done.
Qed.

Lemma validate_filters_raises_witness :
  validate_filters init {["category" := VList ["Sports"]]} = None.
Proof.
  apply (validate_filters_raises_on_list_category init _ ["Sports"]).
  reflexivity.
Defined.

End ValidationFacts.

(** ** Doubles *)

Module FloatFacts.
Import Py.

Lemma SFcompare_refl x : sf_number x → SFcompare x x = Some Eq.
Proof.
  destruct x as [s|s| |s m e]; intros H; try done; simpl.
  - by destruct s.
  - rewrite Z.compare_refl.
    change (Pos.compare_cont Eq m m) with (Pos.compare m m).
    rewrite Pos.compare_refl. by destruct s.
Qed.

Lemma is_number_spec f : is_number f ↔ sf_number (Prim2SF f).
Proof.
  unfold is_number, is_nan, sf_number. rewrite FloatAxioms.eqb_spec. unfold SFeqb. split.
  - intros H Hn. rewrite Hn in H. done.
  - intros H. by rewrite SFcompare_refl.
Qed.

Ltac compare_cases :=
  repeat match goal with
    | H : context [Z.compare ?a ?b] |- _ => destruct (Z.compare_spec a b); subst
    | |- context [Z.compare ?a ?b] => destruct (Z.compare_spec a b); subst
    | H : context [Pos.compare_cont Eq ?a ?b] |- _ =>
        change (Pos.compare_cont Eq a b) with (Pos.compare a b) in H
    | |- context [Pos.compare_cont Eq ?a ?b] =>
        change (Pos.compare_cont Eq a b) with (Pos.compare a b)
    | H : context [Pos.compare ?a ?b] |- _ => destruct (Pos.compare_spec a b); subst
    | |- context [Pos.compare ?a ?b] => destruct (Pos.compare_spec a b); subst
    end.

Lemma SFltb_asym x y : SFltb x y = true → SFltb y x = false.
Proof.
  unfold SFltb, SFcompare.
  destruct x as [sx|sx| |sx mx ex], y as [sy|sy| |sy my ey]; try done;
    try (by destruct sx); try (by destruct sy); try (by destruct sx, sy).
  destruct sx, sy; try done; compare_cases; simpl; try done; lia.
Qed.

Lemma SFltb_negtrans x y z :
  sf_number x → sf_number y → sf_number z →
  SFltb x y = false → SFltb y z = false → SFltb x z = false.
Proof.
  unfold SFltb, SFcompare, sf_number. intros Hx Hy Hz.
  destruct x as [sx|sx| |sx mx ex]; [| |done|];
  destruct y as [sy|sy| |sy my ey]; try done;
  destruct z as [sz|sz| |sz mz ez]; try done;
    destruct sx; try done; destruct sy; try done; destruct sz; try done;
    compare_cases; simpl; try done; lia.
Qed.

Lemma ltb_asym a b : (a <? b)%float = true → (b <? a)%float = false.
Proof. rewrite !FloatAxioms.ltb_spec. apply SFltb_asym. Qed.

Lemma ltb_negtrans a b c :
  is_number a → is_number b → is_number c →
  (a <? b)%float = false → (b <? c)%float = false → (a <? c)%float = false.
Proof. rewrite !is_number_spec, !FloatAxioms.ltb_spec. apply SFltb_negtrans. Qed.

(** Rounding never produces NaN. *)
Lemma iter_pos_invariant {A} (P : A → Prop) (f : A → A) p x :
  (∀ y, P y → P (f y)) → P x → P (SpecFloat.iter_pos f p x).
Proof.
  intros Hf. revert x. induction p as [p IH|p IH|]; intros x Hx; simpl; auto.
Qed.

Lemma shr_1_nonneg mrs : 0 ≤ shr_m mrs → 0 ≤ shr_m (shr_1 mrs).
Proof.
  destruct mrs as [m r s]. simpl. intros H.
  destruct m as [|[p|p|]|p]; simpl; lia.
Qed.

Lemma shr_nonneg mrs e n : 0 ≤ shr_m mrs → 0 ≤ shr_m (shr mrs e n).1.
Proof.
  intros H. unfold shr. destruct n as [|p|p]; simpl; [done| |done].
  by apply (iter_pos_invariant (λ x, 0 ≤ shr_m x)); [apply shr_1_nonneg|].
Qed.

Lemma shr_fexp_nonneg m e l : 0 ≤ m → 0 ≤ shr_m (shr_fexp prec emax m e l).1.
Proof.
  intros H. unfold shr_fexp. apply shr_nonneg.
  by destruct l as [|[]].
Qed.

Lemma round_nearest_even_nonneg m l : 0 ≤ m → 0 ≤ round_nearest_even m l.
Proof.
  intros H. unfold round_nearest_even.
  destruct l as [|[]]; try done; [destruct (Z.even m)|]; lia.
Qed.

Lemma binary_round_aux_number s m e l :
  0 ≤ m → sf_number (binary_round_aux prec emax s m e l).
Proof.
  intros H. unfold binary_round_aux, sf_number.
  pose proof (shr_fexp_nonneg m e l H) as H1.
  destruct (shr_fexp prec emax m e l) as [mrs' e'].
  pose proof (shr_fexp_nonneg
                (round_nearest_even (shr_m mrs') (loc_of_shr_record mrs')) e' loc_Exact
                (round_nearest_even_nonneg _ _ H1)) as H2.
  destruct (shr_fexp prec emax _ e' loc_Exact) as [mrs'' e''].
  simpl in H2. destruct (shr_m mrs'') as [|p|p]; [done| |lia].
  by destruct (e'' <=? emax - prec).
Qed.

Lemma binary_round_number s m e : sf_number (binary_round prec emax s m e).
Proof.
  unfold binary_round. destruct (shl_align _ _ _) as [mz ez].
  by apply binary_round_aux_number.
Qed.

Lemma binary_normalize_number m e s : sf_number (binary_normalize prec emax m e s).
Proof.
  destruct m; simpl; [done|apply binary_round_number..].
Qed.

Lemma SFmul_number x y : sf_finite x → sf_finite y → sf_number (SF64mul x y).
Proof.
  destruct x as [sx|sx| |sx mx ex], y as [sy|sy| |sy my ey]; try done.
  intros _ _. by apply binary_round_aux_number.
Qed.

Lemma SFadd_number x y : sf_finite x → sf_number y → sf_number (SF64add x y).
Proof.
  destruct x as [sx|sx| |sx mx ex], y as [sy|sy| |sy my ey]; try done; intros _ _.
  - by destruct sx, sy.
  - apply binary_normalize_number.
Qed.

Lemma is_finite_spec f : is_finite f = true → sf_finite (Prim2SF f).
Proof.
  unfold is_finite. rewrite negb_true_iff, orb_false_iff. intros [Hn Hi].
  apply is_number_spec in Hn. unfold is_infinity in Hi.
  rewrite FloatAxioms.eqb_spec, abs_spec in Hi. unfold sf_number in Hn.
  destruct (Prim2SF f) as [s|s| |s m e]; try done.
Qed.

Lemma SFcompare_antisym x y :
  sf_number x → sf_number y →
  SFcompare y x = CompOpp <$> SFcompare x y.
Proof.
  unfold sf_number. intros Hx Hy.
  destruct x as [sx|sx| |sx mx ex], y as [sy|sy| |sy my ey]; try done;
    try (by destruct sx); try (by destruct sy); try (by destruct sx, sy).
  simpl. destruct sx, sy; try done;
    rewrite (Z.compare_antisym ex ey);
    destruct (Z.compare ex ey) eqn:E; simpl; try done;
    change (Pos.compare_cont Eq my mx) with (Pos.compare my mx);
    change (Pos.compare_cont Eq mx my) with (Pos.compare mx my);
    rewrite (Pos.compare_antisym mx my); by destruct (Pos.compare mx my).
Qed.

Lemma SFcompare_number x y : sf_number x → sf_number y → is_Some (SFcompare x y).
Proof.
  unfold sf_number. intros Hx Hy.
  destruct x as [sx|sx| |sx mx ex], y as [sy|sy| |sy my ey]; try done;
    by eexists.
Qed.

(** On numbers, "not below" is "at least", and two scores that are not
    ordered are equal. *)
Lemma not_ltb_leb a b :
  is_number a → is_number b → (a <? b)%float = false → (b <=? a)%float = true.
Proof.
  rewrite !is_number_spec, FloatAxioms.ltb_spec, FloatAxioms.leb_spec.
  intros Ha Hb. unfold SFltb, SFleb. rewrite (SFcompare_antisym _ _ Ha Hb).
  destruct (SFcompare_number _ _ Ha Hb) as [c ->]. by destruct c.
Qed.

Lemma tied_eqb a k :
  is_number a → is_number k →
  negb (a <? k)%float && negb (k <? a)%float = (a =? k)%float.
Proof.
  rewrite !is_number_spec, !FloatAxioms.ltb_spec, FloatAxioms.eqb_spec.
  intros Ha Hk. unfold SFltb, SFeqb. rewrite (SFcompare_antisym _ _ Ha Hk).
  destruct (SFcompare_number _ _ Ha Hk) as [c ->]. by destruct c.
Qed.

End FloatFacts.

(** ** Ranking *)

Module RankFacts.
Import Py SearchEngine SearchSpec StringFacts SortFacts SearchFacts FloatFacts.

(** The sums [0.0 + 10.0 + 5.0 + 3.0] of the code are exact: they are the
    points, as a double. *)
Lemma points_as_double (in_name in_description in_category : bool) :
  float_of_int ((if in_name then 10 else 0) + (if in_description then 5 else 0)
                + (if in_category then 3 else 0))
  = Some (let score := 0%float in
          let score := if in_name then (score + 10)%float else score in
          let score := if in_description then (score + 5)%float else score in
          if in_category then (score + 3)%float else score).
Proof. destruct in_name, in_description, in_category; vm_compute; reflexivity. Qed.

Lemma relevance_score_spec query_lower a :
  relevance_score query_lower a = spec_relevance_score query_lower a.
Proof.
  unfold relevance_score, spec_relevance_score, points, times_tenth.
  destruct (lower_of (get_or a "name" (VStr ""))) as [n|]; simpl; [|done].
  destruct (lower_of (get_or a "description" (VStr ""))) as [d|]; simpl; [|done].
  destruct (lower_of (get_or a "category" (VStr ""))) as [c|]; simpl; [|done].
  destruct (as_int (get_or a "popularity" (VInt 0))) as [popularity|]; simpl; [|done].
  rewrite points_as_double. simpl.
  by destruct (float_of_int popularity).
Qed.

Lemma times_tenth_number v f : times_tenth v = Some f → is_number f.
Proof.
  unfold times_tenth, float_of_int.
  destruct (as_int v) as [z|]; simpl; [|done].
  destruct (is_finite _) eqn:Hfin; simpl; [|done]. intros [= <-].
  apply is_number_spec. rewrite mul_spec.
  apply SFmul_number; [by apply is_finite_spec|by vm_compute].
Qed.

Lemma relevance_score_number query_lower a s :
  relevance_score query_lower a = Some s → is_number s.
Proof.
  unfold relevance_score.
  destruct (lower_of (get_or a "name" (VStr ""))) as [n|]; simpl; [|done].
  destruct (lower_of (get_or a "description" (VStr ""))) as [d|]; simpl; [|done].
  destruct (lower_of (get_or a "category" (VStr ""))) as [c|]; simpl; [|done].
  destruct (times_tenth _) as [boost|] eqn:Eb; simpl; [|done].
  apply times_tenth_number, is_number_spec in Eb. intros [= <-].
  apply is_number_spec. rewrite add_spec.
  apply SFadd_number; [|done].
  destruct (contains query_lower n), (contains query_lower d),
    (contains query_lower c); by vm_compute.
Qed.

Lemma relevance_score_total query_lower a :
  well_formed a = true → is_Some (relevance_score query_lower a).
Proof.
  unfold well_formed, relevance_score, times_tenth.
  rewrite !andb_true_iff, !bool_decide_eq_true.
  intros [[[[_ [n ->]] [d ->]] [c ->]] [b Hb]]. simpl.
  destruct (as_int (get_or a "popularity" (VInt 0))) as [z|]; simpl in *; [|done].
  rewrite Hb. by eexists.
Qed.

Lemma well_formed_comparable a m :
  well_formed a = true → is_Some (as_int m) →
  is_Some (ge (get_or a "popularity" (VInt 0)) m).
Proof.
  unfold well_formed. rewrite !andb_true_iff, !bool_decide_eq_true.
  intros [_ [b Hb]] [z Hz].
  destruct (as_int (get_or a "popularity" (VInt 0))) as [p|] eqn:Ep; [|done].
  unfold ge. destruct (get_or a "popularity" (VInt 0)), m; simplify_eq/=; by eexists.
Qed.

Lemma Forall_filter {A} (P : A → Prop) (p : A → bool) l :
  Forall P l → Forall P (List.filter p l).
Proof.
  rewrite !Forall_forall. intros H x Hx%list_elem_of_In%List.filter_In.
  apply H, list_elem_of_In, Hx.
Qed.

Lemma apply_filters_total acts f :
  Forall (λ a, well_formed a = true) acts → comparable (Some f) = true →
  is_Some (apply_filters acts f).
Proof.
  intros Hwf Hc. unfold apply_filters.
  rewrite (filter_criterion f "category" "category").
  rewrite (filter_criterion f "availability" "available").
  rewrite (filter_criterion f "schedule" "schedule").
  simpl in Hc. destruct (f !! "min_popularity") as [m|] eqn:Em; [|by eexists].
  apply bool_decide_eq_true in Hc.
  rewrite filter_opt_total; [by eexists|].
  eapply Forall_impl; [by repeat apply Forall_filter|].
  intros a Ha. simpl in Ha. by apply well_formed_comparable.
Qed.

(** [search] returns on a catalogue of well-formed records. *)
Lemma search_returns e q filters :
  blank q = false →
  Forall (λ a, well_formed a = true) (activities e) → comparable filters = true →
  is_Some (search e q filters).2.
Proof.
  intros Hq Hwf Hc. rewrite search_nonblank by done. simpl. unfold surviving.
  rewrite filter_opt_total.
  2:{ eapply Forall_impl; [exact Hwf|]. intros a Ha. unfold well_formed in Ha.
      rewrite !andb_true_iff, !bool_decide_eq_true in Ha.
      destruct Ha as [[[[[k Hk] _] _] _] _]. unfold in_set. rewrite Hk. by eexists. }
  simpl.
  assert (∃ s, match given filters with
               | Some f => apply_filters
                   (List.filter (λ a, default false (in_set (get a "id") (candidates e q)))
                      (activities e)) f
               | None => Some (List.filter
                   (λ a, default false (in_set (get a "id") (candidates e q)))
                   (activities e))
               end = Some s
               ∧ Forall (λ a, well_formed a = true) s) as (s & -> & Hs).
  { destruct filters as [f|]; simpl; [|eexists; split; [done|by apply Forall_filter]].
    case_bool_decide; [eexists; split; [done|by apply Forall_filter]|].
    destruct (apply_filters_total
                (List.filter (λ a, default false (in_set (get a "id") (candidates e q)))
                   (activities e)) f) as [s Hs]; [by apply Forall_filter|done|].
    exists s. split; [done|]. apply apply_filters_Some in Hs as ->.
    by repeat apply Forall_filter. }
  simpl. apply sorted_total.
  eapply Forall_impl; [exact Hs|]. intros a. apply relevance_score_total.
Qed.

(** C5, with the arithmetic made explicit. For a query that is not
    blank, [search] returns the surviving activities (those that pass the
    text search and the filters) ordered by descending relevance score:
    no activity stands before one with a greater score. The score is a
    double: 10 if the lower-cased query is in the lower-cased name, plus
    5 if it is in the lower-cased description, plus 3 if it is in the
    lower-cased category, plus the popularity times 0.1, the product and
    the sum rounded to doubles. Activities whose doubles are equal are in
    their order among the surviving activities. The returned records are
    records of the catalogue, with no score added. On a catalogue of
    well-formed records the call returns. *)
Theorem search_ranks_by_relevance
    (e : t) (q : string) (filters : option (gmap string value)) :
  blank q = false →
  (∀ a, relevance_score (lower q) a = spec_relevance_score (lower q) a)
  ∧ (Forall (λ a, well_formed a = true) (activities e) → comparable filters = true →
       is_Some (search e q filters).2)
  ∧ ∀ res, (search e q filters).2 = Some res →
      ∃ s, surviving e q filters = Some s
        ∧ res ≡ₚ s
        ∧ (∀ a, a ∈ res → a ∈ activities e)
        ∧ StronglySorted
            (λ a b, ∃ sa sb, relevance_score (lower q) a = Some sa
                             ∧ relevance_score (lower q) b = Some sb
                             ∧ (sb <=? sa)%float = true) res
        ∧ ∀ k, is_number k →
            List.filter (scores (lower q) k) res = List.filter (scores (lower q) k) s.
Proof.
  intros Hq. split_and!.
  - intros a. apply relevance_score_spec.
  - by apply search_returns.
  - intros res Hres. pose proof Hres as Hres'.
    rewrite search_nonblank in Hres by done. simpl in Hres.
    destruct (surviving e q filters) as [s|] eqn:Es; simpl in Hres; [|done].
    exists s. split; [done|].
    unfold rank_results in Hres.
    apply (sorted_spec PrimFloat.ltb is_number) in Hres as (Hp & Hs & Ht).
    + split_and!; [done| | |].
      * intros a Ha. by eapply search_results_in_catalog.
      * eapply StronglySorted_mono; [|exact Hs].
        intros a b (sa & sb & Ha & Hb & Hlt). exists sa, sb. split_and!; [done..|].
        apply not_ltb_leb; [by eapply relevance_score_number..|done].
      * intros k Hk. specialize (Ht k Hk).
        assert (∀ a, scores (lower q) k a
                     = tied_with PrimFloat.ltb (relevance_score (lower q)) k a) as Heq.
        { intros a. unfold scores, tied_with.
          destruct (relevance_score (lower q) a) as [sa|] eqn:Ea; [|done].
          symmetry. apply tied_eqb; [by eapply relevance_score_number|done]. }
        rewrite !(List.filter_ext _ _ Heq). exact Ht.
    + intros a b _ _. apply ltb_asym.
    + apply ltb_negtrans.
    + intros a k _ Hk. by eapply relevance_score_number.
Qed.

Lemma search_ranks_by_relevance_witness :
  is_Some (search Samples.sample_engine "chess" None).2.
Proof.
  apply (search_ranks_by_relevance Samples.sample_engine "chess" None).
  - reflexivity.
  - repeat constructor.
  - reflexivity.
Defined.

(** C5 read in exact arithmetic fails. For "chess" the two first records
    of the sample catalogue both score 10.1 exactly (10 + 1 × 0.1 and
    101 × 0.1), and the first stands before the second among the
    surviving activities; yet [search] returns the second first. *)
Example exact_tie_is_reordered :
  exact_score_tenths "chess" Samples.chess_club = Some 101
  ∧ exact_score_tenths "chess" Samples.strategy_lab = Some 101
  ∧ fmap (M:=list) (λ a, get a "name") <$> surviving Samples.sample_engine "chess" None
    = Some [VStr "Chess Club"; VStr "Strategy Lab"]
  ∧ fmap (M:=list) (λ a, get a "name") <$> (search Samples.sample_engine "chess" None).2
    = Some [VStr "Strategy Lab"; VStr "Chess Club"].
Proof. split_and!; vm_compute; reflexivity. Qed.

(** The reason: scores are doubles. For "chess" the first record scores
    10 + 1 × 0.1 = 10.1 (0x1.4333333333333p+3) and the second
    101 × 0.1 = 10.100000000000001 (0x1.4333333333334p+3), so the second
    is returned first although it comes later in the catalogue. *)
Example ranking_in_double_arithmetic :
  relevance_score "chess" Samples.chess_club = Some 0x1.4333333333333p+3%float
  ∧ relevance_score "chess" Samples.strategy_lab = Some 0x1.4333333333334p+3%float
  ∧ fmap (M:=list) (λ a, get a "name") <$> (search Samples.sample_engine "chess" None).2
    = Some [VStr "Strategy Lab"; VStr "Chess Club"].
Proof. split_and!; vm_compute; reflexivity. Qed.

End RankFacts.

(** ** Sorting in the engine *)

Module EngineSortFacts.
Import Py SearchEngine StringFacts SortFacts.

(** [sort_activities] of the engine has its own keys. Under
    ["alphabetical"] the records come back in ascending order of the
    lower-cased name, records with the same lower-cased name in their
    order in the argument; a key that is none of ["alphabetical"],
    ["popularity"] and ["date"] leaves the list as it is. *)
Lemma sort_activities_alphabetical (acts res : list activity) :
  sort_activities acts "alphabetical" = Some res →
  res ≡ₚ acts
  ∧ StronglySorted
      (λ a b, ∃ na nb, lower_of (get_or a "name" (VStr "")) = Some na
                       ∧ lower_of (get_or b "name" (VStr "")) = Some nb
                       ∧ str_ltb nb na = false) res
  ∧ ∀ n, List.filter (tied_with str_ltb (λ x, lower_of (get_or x "name" (VStr ""))) n) res
         = List.filter (tied_with str_ltb (λ x, lower_of (get_or x "name" (VStr ""))) n) acts.
Proof.
  unfold sort_activities. rewrite decide_True by done. intros H.
  apply (sorted_spec str_ltb (λ _, True)) in H as (Hp & Hs & Ht); [|auto using str_ltb_asym| |done].
  - split_and!; [done|exact Hs|]. intros n. by apply Ht.
  - intros a b c _ _ _. apply str_ltb_negtrans.
Qed.

Lemma sort_activities_other_key (acts : list activity) (sort_by : string) :
  sort_by ∉ ["alphabetical"; "popularity"; "date"] →
  sort_activities acts sort_by = Some acts.
Proof.
  intros H. unfold sort_activities.
  rewrite !decide_False; [done|set_solver..].
Qed.

End EngineSortFacts.

(** ** Rosters over time *)

Module RosterRunFacts.
Import Py App AppSpec DictFacts RosterFacts RosterRuns.

Lemma with_participants_id (a : Activity) : with_participants a (participants a) = a.
Proof. by destruct a. Qed.

Lemma with_participants_twice (a : Activity) l l' :
  with_participants (with_participants a l) l' = with_participants a l'.
Proof. done. Qed.

Lemma oset_id {V} (d : odict V) k v : oget d k = Some v → oset d k v = d.
Proof.
  induction d as [|[k' v'] d IH]; simpl; [done|].
  destruct (decide (k' = k)) as [->|Hne]; [by intros [= ->]|].
  intros H. by rewrite IH.
Qed.

Lemma oset_oset {V} (d : odict V) k v w : oset (oset d k v) k w = oset d k w.
Proof.
  induction d as [|[k' v'] d IH]; simpl.
  - by rewrite decide_True.
  - destruct (decide (k' = k)) as [->|Hne]; simpl.
    + by rewrite decide_True.
    + by rewrite decide_False, IH.
Qed.

Lemma list_remove_app_new (x : string) (l : list string) :
  x ∉ l → list_remove x (l ++ [x]) = l.
Proof.
  induction l as [|y l IH]; simpl.
  - intros _. by rewrite decide_True.
  - intros [Hne Hl]%not_elem_of_cons. rewrite decide_False by done. by rewrite IH.
Qed.

(** X1. A signup that succeeds is undone by unregistering the same
    address from the same activity: the second call succeeds and the
    database is again exactly what it was before the signup. *)
Theorem signup_then_unregister_restores
    (acts : odict Activity) (activity_name email : string) (a : Activity) :
  oget acts activity_name = Some a → email ∉ participants a →
  let after_signup := (signup_for_activity acts activity_name email).1 in
  unregister_from_activity after_signup activity_name email
  = (acts, inr ("Unregistered " +:+ email +:+ " from " +:+ activity_name)).
Proof.
  intros Ha Hnot. unfold signup_for_activity. rewrite Ha, bool_decide_false by done.
  simpl. unfold unregister_from_activity. rewrite oget_oset_eq. simpl.
  rewrite bool_decide_true by (apply elem_of_app; right; left).
  rewrite oset_oset, list_remove_app_new by done.
  by rewrite with_participants_twice, with_participants_id, oset_id.
Qed.

Lemma signup_then_unregister_restores_witness :
  unregister_from_activity
    (signup_for_activity activities "Chess Club" "new@mergington.edu").1
    "Chess Club" "new@mergington.edu"
  = (activities,
     inr ("Unregistered " +:+ "new@mergington.edu" +:+ " from " +:+ "Chess Club")).
Proof.
  apply (signup_then_unregister_restores activities "Chess Club" "new@mergington.edu"
           (mkActivity "Learn strategies and compete in chess tournaments"
              "Fridays, 3:30 PM - 5:00 PM" 12
              ["michael@mergington.edu"; "daniel@mergington.edu"] (Some "Academic"))).
  - reflexivity.
  - vm_compute. intros H. by repeat (apply elem_of_cons in H as [H|H]; [done|]);
      apply elem_of_nil in H.
Defined.

Lemma NoDup_list_remove (x : string) (l : list string) :
  NoDup l → NoDup (list_remove x l) ∧ x ∉ list_remove x l.
Proof.
  induction 1 as [|y l Hy Hl IH]; simpl; [split; [constructor|apply not_elem_of_nil]|].
  destruct (decide (y = x)) as [->|Hne]; [done|].
  destruct IH as [IH1 IH2]. split.
  - constructor; [|done]. intros H. by apply elem_of_list_remove in H.
  - by intros [?|?]%elem_of_cons.
Qed.

Lemma rosters_distinct_oset acts k (a : Activity) :
  rosters_distinct acts → NoDup (participants a) → rosters_distinct (oset acts k a).
Proof.
  unfold rosters_distinct. intros Hd Ha.
  induction Hd as [|[k' a'] acts Hx Hd IH]; simpl.
  - by repeat constructor.
  - destruct (decide (k' = k)); constructor; done.
Qed.

Lemma rosters_distinct_lookup acts k (a : Activity) :
  rosters_distinct acts → oget acts k = Some a → NoDup (participants a).
Proof.
  intros Hd Ha. apply oget_elem_of in Ha. unfold rosters_distinct in Hd.
  rewrite Forall_forall in Hd. by apply (Hd _ Ha).
Qed.

Lemma roster_step_distinct acts c :
  rosters_distinct acts → rosters_distinct (roster_step acts c).
Proof.
  intros Hd. destruct c as [n e|n e]; simpl;
    unfold signup_for_activity, unregister_from_activity;
    destruct (oget acts n) as [a|] eqn:Ha; try done;
    pose proof (rosters_distinct_lookup _ _ _ Hd Ha) as Hnd;
    case_bool_decide; try done; simpl; apply rosters_distinct_oset; try done; simpl.
  - apply NoDup_app. split_and!; [done| |apply NoDup_singleton].
    by intros x Hx ->%list_elem_of_singleton.
  - by apply NoDup_list_remove.
Qed.

(** X2. The roster handlers keep every roster free of repetitions: if
    no roster of the database lists an address twice, the same holds
    after any sequence of signups and unregistrations, successful or
    not. On such a database an unregistration that succeeds removes the
    address altogether, so repeating it fails with [NotRegistered]. *)
Theorem rosters_stay_distinct (acts : odict Activity) (calls : list roster_call) :
  rosters_distinct acts →
  rosters_distinct (run_roster acts calls)
  ∧ ∀ activity_name email acts' msg,
      unregister_from_activity (run_roster acts calls) activity_name email
        = (acts', inr msg) →
      unregister_from_activity acts' activity_name email = (acts', inl NotRegistered).
Proof.
  intros Hd.
  assert (rosters_distinct (run_roster acts calls)) as Hr.
  { unfold run_roster. revert acts Hd.
    induction calls as [|c calls IH]; intros acts Hd; [done|].
    simpl. apply IH. by apply roster_step_distinct. }
  split; [done|]. intros n e acts' msg.
  unfold unregister_from_activity at 1.
  destruct (oget (run_roster acts calls) n) as [a|] eqn:Ha; [|done].
  case_bool_decide; [|done]. intros [= <- _].
  unfold unregister_from_activity. rewrite oget_oset_eq. simpl.
  rewrite bool_decide_false; [done|].
  apply NoDup_list_remove. by eapply rosters_distinct_lookup.
Qed.

Lemma rosters_stay_distinct_witness :
  rosters_distinct
    (run_roster activities
       [Signup "Chess Club" "new@mergington.edu";
        Signup "Chess Club" "new@mergington.edu";
        Unregister "Art Club" "harper@mergington.edu"]).
Proof.
  apply (rosters_stay_distinct activities).
  unfold rosters_distinct, activities.
  repeat constructor; vm_compute; intros H;
    repeat (apply elem_of_cons in H as [H|H]; [done|]); by apply elem_of_nil in H.
Defined.

(** X3. A signup is never refused for lack of room: for a known
    activity and an address that is not on its roster the call
    succeeds also when the roster is full, and the roster is then
    longer than [max_participants]. The only refusals are
    [ActivityNotFound] and [AlreadyRegistered]. *)
Theorem signup_ignores_capacity
    (acts : odict Activity) (activity_name email : string) :
  (∀ a, oget acts activity_name = Some a → email ∉ participants a →
     max_participants a ≤ len (participants a) →
     ∃ acts' msg a',
       signup_for_activity acts activity_name email = (acts', inr msg)
       ∧ oget acts' activity_name = Some a'
       ∧ max_participants a' < len (participants a'))
  ∧ (∀ acts' err,
       signup_for_activity acts activity_name email = (acts', inl err) →
       acts' = acts ∧ (err = ActivityNotFound ∨ err = AlreadyRegistered)).
Proof.
  unfold signup_for_activity. split.
  - intros a Ha Hnot Hfull. rewrite Ha, bool_decide_false by done.
    eexists _, _, _. split_and!; [done|apply oget_oset_eq|].
    simpl. unfold len in *. rewrite length_app. simpl. lia.
  - intros acts' err. destruct (oget acts activity_name) as [a|].
    + case_bool_decide; [|done]. intros [= <- <-]. auto.
    + intros [= <- <-]. auto.
Qed.

End RosterRunFacts.

(** ** Indexing *)

Module IndexFacts.
Import Py SearchEngine SearchSpec IndexSpec DictFacts StringFacts SearchFacts.
Import RosterRunFacts.

Lemma oget_oset {V} (d : odict V) k k' v :
  oget (oset d k v) k' = if decide (k' = k) then Some v else oget d k'.
Proof.
  destruct (decide (k' = k)) as [->|Hne]; [apply oget_oset_eq|by apply oget_oset_ne].
Qed.

Lemma okeys_oset_prefix {V} (d : odict V) k v : okeys d `prefix_of` okeys (oset d k v).
Proof.
  destruct (oget d k) as [v0|] eqn:E.
  - rewrite okeys_oset; [done|by eexists].
  - rewrite okeys_oset_new by done. by apply prefix_app_r.
Qed.

Section Postings.
Context (k : key).

(** The loop of [index_activity] for an identifier [k]. *)
Let file (idx : odict (gset key)) (w : string) : odict (gset key) :=
  oset idx w ({[k]} ∪ default ∅ (oget idx w)).

Lemma file_all_lookup (words : list string) (idx : odict (gset key)) w :
  oget (foldl file idx words) w
  = if decide (w ∈ words) then Some ({[k]} ∪ default ∅ (oget idx w)) else oget idx w.
Proof.
  revert idx. induction words as [|w0 words IH]; intros idx; [done|].
  cbn [foldl]. rewrite IH. unfold file. rewrite !oget_oset.
  destruct (decide (w = w0)) as [->|Hne].
  - rewrite (decide_True (P:=w0 ∈ w0 :: words)) by left.
    case_decide; [|done]. simpl. f_equal. set_solver.
  - destruct (decide (w ∈ words)) as [Hin|Hnin].
    + by rewrite (decide_True (P:=w ∈ w0 :: words)) by (by right).
    + rewrite (decide_False (P:=w ∈ w0 :: words)); [done|].
      by intros [?|?]%elem_of_cons.
Qed.

Lemma file_all_keys (words : list string) (idx : odict (gset key)) :
  okeys idx `prefix_of` okeys (foldl file idx words).
Proof.
  revert idx. induction words as [|w0 words IH]; intros idx; [done|].
  cbn [foldl]. etrans; [|apply IH]. apply okeys_oset_prefix.
Qed.

Lemma file_all_fixed (words : list string) (idx : odict (gset key)) :
  (∀ w, w ∈ words → ∃ s, oget idx w = Some s ∧ k ∈ s) →
  foldl file idx words = idx.
Proof.
  induction words as [|w0 words IH]; intros H; [done|].
  cbn [foldl]. destruct (H w0) as (s & Hs & Hk); [left|].
  assert (file idx w0 = idx) as ->.
  { unfold file. rewrite Hs. simpl.
    assert ({[k]} ∪ s = s) as -> by set_solver. by apply oset_id. }
  apply IH. intros w Hw. apply H. by right.
Qed.

End Postings.

Lemma index_activity_Some e a e' :
  index_activity e a = (e', Some ()) →
  ∃ words, words_of a = Some words
    ∧ ((∃ k, hashable (get a "id") = Some k
          ∧ e' = set_index e
                   (foldl (λ idx w, oset idx w ({[k]} ∪ default ∅ (oget idx w)))
                      (search_index e) words))
       ∨ (hashable (get a "id") = None ∧ words = [] ∧ e' = e)).
Proof.
  unfold index_activity, words_of.
  destruct (create_searchable_text a) as [text|]; [|done]. simpl.
  destruct (hashable (get a "id")) as [k|].
  - intros [= <-]. eexists. split; [done|]. left. by eexists.
  - destruct (split (lower text)) as [|w ws]; [|done].
    intros [= <-]. eexists. split; [done|]. by right.
Qed.

Lemma index_activity_files_words_frame e a e' :
  index_activity e a = (e', Some ()) → activities e' = activities e.
Proof.
  by intros (words & Hw & [(k & Hk & ->)|(Hk & -> & ->)])%index_activity_Some.
Qed.

(** Whatever its outcome, a call keeps the catalogue and the members of
    every posting set. *)
Lemma index_activity_grows e a :
  activities (index_activity e a).1 = activities e
  ∧ ∀ w, posting e w ⊆ posting (index_activity e a).1 w.
Proof.
  unfold index_activity.
  destruct (create_searchable_text a) as [text|]; [|done].
  destruct (hashable (get a "id")) as [k|].
  - split; [done|]. intros w. unfold posting. simpl. rewrite file_all_lookup.
    case_decide; simpl; set_solver.
  - destruct (split (lower text)) as [|w0 ws]; [done|]. split; [done|].
    intros w. unfold posting. simpl.
    destruct (oget (search_index e) w0) eqn:E; [done|].
    rewrite oget_oset. case_decide; [|done]. subst. by rewrite E.
Qed.

Lemma index_activity_posted e e' a :
  index_activity e a = (e', Some ()) →
  ∀ words w, words_of a = Some words → w ∈ words →
    ∃ k, hashable (get a "id") = Some k ∧ k ∈ posting e' w.
Proof.
  intros (words & Hw & [(k & Hk & ->)|(Hk & -> & ->)])%index_activity_Some.
  - intros words' w Hw' Hin. exists k. split; [done|].
    unfold posting. simpl. rewrite file_all_lookup. simplify_eq.
    rewrite decide_True by done. simpl. set_solver.
  - intros words' w Hw' Hin. simplify_eq. by apply elem_of_nil in Hin.
Qed.

(** X4. A call of [index_activity] that returns files the identifier
    of the record under every word of its lower-cased searchable text.
    It only adds: every posting set keeps its members and gains at most
    this identifier, the words already in the index keep their places,
    and the catalogue and the recent searches are as before. *)
Theorem index_activity_files_words (e e' : t) (a : activity) :
  index_activity e a = (e', Some ()) →
  activities e' = activities e
  ∧ recent_searches e' = recent_searches e
  ∧ okeys (search_index e) `prefix_of` okeys (search_index e')
  ∧ (∀ w, posting e w ⊆ posting e' w)
  ∧ (∀ w k, hashable (get a "id") = Some k → posting e' w ⊆ posting e w ∪ {[k]})
  ∧ (∀ words w, words_of a = Some words → w ∈ words →
       ∃ k, hashable (get a "id") = Some k ∧ k ∈ posting e' w).
Proof.
  intros (words & Hw & [(k & Hk & ->)|(Hk & -> & ->)])%index_activity_Some.
  - split_and!; [done|done|apply file_all_keys| | |].
    + intros w. unfold posting. simpl. rewrite file_all_lookup.
      case_decide; simpl; set_solver.
    + intros w k' Hk'. unfold posting. simpl. rewrite file_all_lookup.
      case_decide; simpl; set_solver.
    + intros words' w Hw' Hin. exists k. split; [done|].
      unfold posting. simpl. rewrite file_all_lookup. simplify_eq.
      rewrite decide_True by done. simpl. set_solver.
  - split_and!; [done..| | |].
    + done.
    + set_solver.
    + intros words' w Hw' Hin. simplify_eq. by apply elem_of_nil in Hin.
Qed.

Lemma index_activity_files_words_witness :
  ∃ k, hashable (get Samples.chess_club "id") = Some k
       ∧ k ∈ posting (index_activity init Samples.chess_club).1 "chess".
Proof.
  destruct (index_activity_files_words init (index_activity init Samples.chess_club).1
              Samples.chess_club) as (_ & _ & _ & _ & _ & H).
  - rewrite (surjective_pairing (index_activity init Samples.chess_club)) at 1.
    f_equal.
  - apply (H ["chess"; "club"; "board"; "games"; "after"; "school"; "academic"]).
    + reflexivity.
    + left.
Defined.

(** X5. Indexing is idempotent: indexing a record again right after a
    call that returned changes nothing, neither the posting sets nor the
    order of the words. *)
Theorem index_activity_again (e e' : t) (a : activity) :
  index_activity e a = (e', Some ()) → index_activity e' a = (e', Some ()).
Proof.
  intros H. pose proof H as (words & Hw & [(k & Hk & He')|(Hk & -> & ->)])%index_activity_Some;
    [|done].
  remember (foldl (λ idx w, oset idx w ({[k]} ∪ default ∅ (oget idx w)))
              (search_index e) words) as idx' eqn:Hidx.
  assert (∀ w, w ∈ words → ∃ s, oget idx' w = Some s ∧ k ∈ s) as Hfixed.
  { intros w Hin. rewrite Hidx, file_all_lookup, decide_True by done.
    eexists. split; [done|]. set_solver. }
  subst e'. unfold words_of in Hw. unfold index_activity.
  destruct (create_searchable_text a) as [text|]; [|done]. simpl in Hw.
  injection Hw as Hw. rewrite Hk, Hw. simpl.
  rewrite (file_all_fixed k words idx' Hfixed). by destruct e.
Qed.

Lemma index_activity_again_witness :
  index_activity (index_activity init Samples.strategy_lab).1 Samples.strategy_lab
  = ((index_activity init Samples.strategy_lab).1, Some ()).
Proof.
  apply (index_activity_again init).
  rewrite (surjective_pairing (index_activity init Samples.strategy_lab)) at 1.
  f_equal.
Defined.

(** X6. An indexed record is found by its words. If a record of the
    catalogue was indexed by a call that returned, then every search
    without filters that returns, for a query each of whose terms is a
    word of the record's lower-cased searchable text, lists the record;
    this stays so after other records are indexed. *)
Theorem indexed_activity_is_found (e e' : t) (a : activity) (later : list activity)
    (q : string) :
  index_activity e a = (e', Some ()) →
  a ∈ activities e →
  blank q = false →
  (∀ w, w ∈ split (lower q) → ∃ words, words_of a = Some words ∧ w ∈ words) →
  let e'' := foldl (λ e b, (index_activity e b).1) e' later in
  ∀ res, (search e'' q None).2 = Some res → a ∈ res.
Proof.
  intros Hidx Ha Hq Hterms e'' res Hres.
  assert (activities e'' = activities e
          ∧ ∀ w, posting e' w ⊆ posting e'' w) as [Hacts Hpost].
  { subst e''. assert (activities e' = activities e) as <-.
    { by apply index_activity_files_words_frame in Hidx. }
    clear. revert e'. induction later as [|b later IH]; intros e'; [done|].
    cbn [foldl]. destruct (IH (index_activity e' b).1) as [-> Hp].
    destruct (index_activity_grows e' b) as [-> Hg].
    split; [done|]. intros w. etrans; [apply Hg|apply Hp]. }
  pose proof (split_lower_nonempty q Hq) as Hne.
  destruct (split (lower q)) as [|w0 ws] eqn:Es; [done|].
  destruct (Hterms w0) as (words0 & Hw0 & Hin0); [left|].
  destruct (index_activity_posted e e' a Hidx words0 w0 Hw0 Hin0) as (k & Hk & _).
  assert (k ∈ candidates e'' q) as Hcand.
  { unfold candidates. rewrite find_matching_ids_spec by (by rewrite Es).
    rewrite Es. intros w Hw. apply Hpost.
    destruct (Hterms w Hw) as (words & Hws & Hin).
    destruct (index_activity_posted e e' a Hidx words w Hws Hin) as (k' & Hk' & Hp).
    by simplify_eq. }
  rewrite search_nonblank in Hres by done. simpl in Hres.
  destruct (surviving e'' q None) as [s|] eqn:Es'; simpl in Hres; [|done].
  apply rank_results_perm in Hres. rewrite Hres.
  apply surviving_spec in Es' as (cands & -> & _ & ->). simpl.
  apply list_elem_of_In, List.filter_In. split.
  - apply list_elem_of_In. by rewrite Hacts.
  - apply in_set_true. by exists k.
Qed.

Lemma indexed_activity_is_found_witness :
  ∃ res, (search Samples.sample_engine "Chess club" None).2 = Some res
         ∧ Samples.chess_club ∈ res.
Proof.
  exists [Samples.chess_club]. split; [vm_compute; reflexivity|].
  apply (indexed_activity_is_found
           (set_activities init Samples.sample_catalogue)
           (index_activity (set_activities init Samples.sample_catalogue)
              Samples.chess_club).1
           Samples.chess_club [Samples.strategy_lab; Samples.art_club] "Chess club").
  - rewrite (surjective_pairing
               (index_activity (set_activities init Samples.sample_catalogue)
                  Samples.chess_club)) at 1.
    f_equal.
  - left.
  - reflexivity.
  - intros w Hw.
    exists ["chess"; "club"; "board"; "games"; "after"; "school"; "academic"].
    split; [reflexivity|].
    apply elem_of_cons in Hw as [->|Hw]; [left|].
    apply elem_of_cons in Hw as [->|Hw]; [right; left|].
    by apply elem_of_nil in Hw.
  - vm_compute. reflexivity.
Defined.

End IndexFacts.

(** ** More on searching and filtering *)

Module SearchMoreFacts.
Import Py SearchEngine SearchSpec StringFacts SortFacts SearchFacts.

Lemma blank_of_lower q q' : lower q = lower q' → blank q = blank q'.
Proof. intros H. by rewrite <- (blank_lower q), H, blank_lower. Qed.

(** X7. [search] is insensitive to the case of the query and to the
    recent searches: two queries with the same lower-cased text give the
    same result (the same list or the same exception) on engines that
    differ only in their recent-search list. A call leaves the catalogue
    and the index as they were. *)
Theorem search_ignores_case
    (e : t) (q q' : string) (filters : option (gmap string value)) (r : list string) :
  lower q = lower q' →
  (search (set_recent e r) q' filters).2 = (search e q filters).2
  ∧ activities (search e q filters).1 = activities e
  ∧ search_index (search e q filters).1 = search_index e.
Proof.
  intros Hl. pose proof (blank_of_lower q q' Hl) as Hb.
  destruct (blank q) eqn:Hq.
  - rewrite !search_blank by done. done.
  - rewrite !search_nonblank by done. simpl. split; [|done].
    unfold surviving, candidates, rank_results. by rewrite Hl.
Qed.

Lemma search_ignores_case_witness :
  (search (set_recent Samples.sample_engine ["art"]) "chess CLUB" None).2
  = (search Samples.sample_engine "Chess Club" None).2.
Proof.
  apply (search_ignores_case Samples.sample_engine "Chess Club" "chess CLUB" None ["art"]).
  reflexivity.
Defined.

(** X8. The terms of a query are combined by "and": a list of terms
    that contains every term of another (not empty) list has a candidate
    set included in the other's. So the candidate set depends only on
    which terms occur, not on their order or on repetitions. *)
Theorem more_terms_fewer_candidates (e : t) (terms1 terms2 : list string) :
  terms1 ≠ [] →
  ((∀ w, w ∈ terms1 → w ∈ terms2) →
     find_matching_ids e terms2 ⊆ find_matching_ids e terms1)
  ∧ ((∀ w, w ∈ terms1 ↔ w ∈ terms2) →
     find_matching_ids e terms2 = find_matching_ids e terms1).
Proof.
  intros Hne.
  assert (∀ t1 t2 : list string, t1 ≠ [] → (∀ w, w ∈ t1 → w ∈ t2) →
            find_matching_ids e t2 ⊆ find_matching_ids e t1) as Hsub.
  { intros t1 t2 H1 Hin k Hk.
    assert (t2 ≠ []) as H2.
    { destruct t1 as [|w t1]; [done|]. intros ->.
      specialize (Hin w). rewrite elem_of_nil in Hin. apply Hin. left. }
    rewrite find_matching_ids_spec in Hk |- * by done.
    intros w Hw. apply Hk, Hin, Hw. }
  split; [by apply Hsub|]. intros Heq.
  assert (terms2 ≠ []) as H2.
  { destruct terms1 as [|w t1]; [done|]. intros ->.
    specialize (Heq w). rewrite elem_of_nil in Heq. apply Heq. left. }
  apply set_eq. intros k. split; apply Hsub; try done; intros w; apply Heq.
Qed.

Lemma more_terms_fewer_candidates_witness :
  find_matching_ids Samples.sample_engine ["club"; "chess"; "club"]
  = find_matching_ids Samples.sample_engine ["chess"; "club"].
Proof.
  apply (more_terms_fewer_candidates Samples.sample_engine ["chess"; "club"]
           ["club"; "chess"; "club"]); [done|].
  intros w. rewrite !elem_of_cons. naive_solver.
Defined.

Lemma apply_filters_eq acts filters :
  (∀ a, a ∈ acts → is_Some (popular_enough filters a)) →
  apply_filters acts filters = Some (List.filter (matches filters) acts).
Proof.
  intros Hp. unfold apply_filters.
  rewrite (filter_criterion filters "category" "category").
  rewrite (filter_criterion filters "availability" "available").
  rewrite (filter_criterion filters "schedule" "schedule").
  rewrite !filter_filter_and. unfold matches.
  destruct (filters !! "min_popularity") as [m|] eqn:Em.
  - rewrite filter_opt_total.
    + f_equal. rewrite filter_filter_and. apply List.filter_ext. intros a.
      unfold popular_enough. by rewrite Em, !andb_assoc.
    + apply Forall_forall. intros a [Ha _]%list_elem_of_In%List.filter_In.
      specialize (Hp a). unfold popular_enough in Hp. rewrite Em in Hp.
      by apply Hp, list_elem_of_In.
  - f_equal. apply List.filter_ext. intros a.
    unfold popular_enough. rewrite Em. simpl. by rewrite andb_true_r, !andb_assoc.
Qed.

Lemma filter_filter_same {A} (p : A → bool) l :
  List.filter p (List.filter p l) = List.filter p l.
Proof.
  rewrite filter_filter_and. apply List.filter_ext. intros a. by destruct (p a).
Qed.

(** X9. Filtering composes: what [_apply_filters] returns is a sublist
    of its argument, filtering it again with the same map returns it
    unchanged, and an entry of the map under a key other than
    [category], [availability], [schedule] and [min_popularity] has no
    effect on the result. *)
Theorem apply_filters_composes
    (acts res : list activity) (filters : gmap string value) :
  apply_filters acts filters = Some res →
  res `sublist_of` acts
  ∧ apply_filters res filters = Some res
  ∧ ∀ k v, k ∉ ["category"; "availability"; "schedule"; "min_popularity"] →
      apply_filters acts (<[k := v]> filters) = Some res.
Proof.
  intros H. pose proof H as ->%apply_filters_Some. split_and!.
  - apply filter_sublist.
  - rewrite apply_filters_eq; [by rewrite filter_filter_same|].
    intros a [_ Ha]%list_elem_of_In%List.filter_In.
    unfold matches in Ha. rewrite !andb_true_iff in Ha. destruct Ha as [_ Ha].
    by destruct (popular_enough filters a); [eexists|].
  - intros k v Hk. rewrite <- H. unfold apply_filters.
    rewrite !lookup_insert_ne by set_solver. done.
Qed.

Lemma apply_filters_composes_witness :
  apply_filters [Samples.chess_club; Samples.strategy_lab]
    {["category" := VStr "Academic"]}
  = Some [Samples.chess_club; Samples.strategy_lab].
Proof.
  apply (apply_filters_composes Samples.sample_catalogue
           [Samples.chess_club; Samples.strategy_lab] {["category" := VStr "Academic"]}).
  vm_compute. reflexivity.
Defined.

End SearchMoreFacts.

(** ** More on filter validation *)

Module ValidationMoreFacts.
Import Py FilterManager FilterSpec ValidationFacts.
Import SearchSpec SearchFacts SearchMoreFacts.

Lemma kept_category fm filters :
  kept fm filters "category"
  = (c ← filters !! "category"; key ← hashable c;
     if bool_decide (key ∈ available_categories fm) then Some c else None).
Proof. unfold kept. by repeat case_decide. Qed.

Lemma kept_schedule fm filters :
  kept fm filters "schedule"
  = (s ← filters !! "schedule"; key ← hashable s;
     if bool_decide (key ∈ available_schedules fm) then Some s else None).
Proof. unfold kept. by repeat case_decide. Qed.

Lemma kept_availability fm filters :
  kept fm filters "availability"
  = match filters !! "availability" with
    | Some (VBool b) => Some (VBool b)
    | _ => None
    end.
Proof. unfold kept. by repeat case_decide. Qed.

Lemma kept_min_popularity fm filters :
  kept fm filters "min_popularity"
  = (v ← filters !! "min_popularity";
     match int v with inr z => Some (VInt z) | inl _ => None end).
Proof. unfold kept. by repeat case_decide. Qed.

(** The map that [validate_filters] returns, built from what is kept
    under each of the four keys. *)
Lemma validate_filters_shape (fm : t) (filters valid : gmap string value) :
  validate_filters fm filters = Some valid →
  valid = insert_if "min_popularity" (kept fm filters "min_popularity")
            (insert_if "availability" (kept fm filters "availability")
               (insert_if "schedule" (kept fm filters "schedule")
                  (insert_if "category" (kept fm filters "category") ∅))).
Proof.
  rewrite kept_category, kept_schedule, kept_availability, kept_min_popularity.
  unfold validate_filters, in_set, insert_if.
  destruct (filters !! "category") as [c|]; simpl;
    [destruct (hashable c) as [kc|]; simpl; [case_bool_decide|done]|];
    (destruct (filters !! "schedule") as [s|]; simpl;
       [destruct (hashable s) as [ks|]; simpl; [case_bool_decide|done]|]);
    destruct (filters !! "availability") as [[]|];
    (destruct (filters !! "min_popularity") as [w|]; simpl;
       [destruct (int w) as [?|n]|]);
    by intros [= <-].
Qed.

Lemma lookup_insert_if k k' o (m : gmap string value) :
  insert_if k o m !! k'
  = if decide (k' = k) then (match o with Some v => Some v | None => m !! k' end)
    else m !! k'.
Proof.
  unfold insert_if. destruct o as [v|]; case_decide; subst.
  - apply lookup_insert_eq.
  - by apply lookup_insert_ne.
  - done.
  - done.
Qed.

(** Entry by entry, the map that [validate_filters] returns. *)
Lemma validate_filters_lookup (fm : t) (filters valid : gmap string value) :
  validate_filters fm filters = Some valid → ∀ k, valid !! k = kept fm filters k.
Proof.
  intros ->%validate_filters_shape k. rewrite !lookup_insert_if, lookup_empty.
  destruct (decide (k = "min_popularity")) as [->|H1].
  { by destruct (kept fm filters "min_popularity"). }
  destruct (decide (k = "availability")) as [->|H2].
  { by destruct (kept fm filters "availability"). }
  destruct (decide (k = "schedule")) as [->|H3].
  { by destruct (kept fm filters "schedule"). }
  destruct (decide (k = "category")) as [->|H4].
  { by destruct (kept fm filters "category"). }
  unfold kept. by rewrite !decide_False.
Qed.

Lemma kept_cases fm filters k :
  kept fm filters k ≠ None →
  k ∈ ["category"; "schedule"; "availability"; "min_popularity"].
Proof. unfold kept. repeat case_decide; subst; set_solver. Qed.

Lemma kept_hashable fm filters k v :
  kept fm filters k = Some v → is_Some (hashable v).
Proof.
  intros H. assert (kept fm filters k ≠ None) as Hk by congruence.
  apply kept_cases in Hk.
  repeat (apply elem_of_cons in Hk as [->|Hk]); [| | | |by apply elem_of_nil in Hk].
  - rewrite kept_category in H.
    destruct (filters !! "category") as [c|]; [|done]. simpl in H.
    destruct (hashable c) eqn:Hc; [|done]. simpl in H.
    case_bool_decide; by simplify_eq.
  - rewrite kept_schedule in H.
    destruct (filters !! "schedule") as [c|]; [|done]. simpl in H.
    destruct (hashable c) eqn:Hc; [|done]. simpl in H.
    case_bool_decide; by simplify_eq.
  - rewrite kept_availability in H.
    by destruct (filters !! "availability") as [[]|]; simplify_eq.
  - rewrite kept_min_popularity in H.
    destruct (filters !! "min_popularity") as [w|]; [|done]. simpl in H.
    by destruct (int w); simplify_eq.
Qed.

Lemma kept_kept fm filters valid k :
  (∀ k, valid !! k = kept fm filters k) → kept fm valid k = kept fm filters k.
Proof.
  intros Hv.
  destruct (decide (k ∈ ["category"; "schedule"; "availability"; "min_popularity"]))
    as [Hk|Hk].
  - repeat (apply elem_of_cons in Hk as [->|Hk]); [| | | |by apply elem_of_nil in Hk].
    + rewrite (kept_category fm valid), Hv, kept_category.
      destruct (filters !! "category") as [c|]; [|done]. simpl.
      destruct (hashable c) as [kc|] eqn:Hc; [|done]. simpl.
      case_bool_decide as Hin; [|done]. simpl. rewrite Hc. simpl.
      by rewrite bool_decide_true.
    + rewrite (kept_schedule fm valid), Hv, kept_schedule.
      destruct (filters !! "schedule") as [c|]; [|done]. simpl.
      destruct (hashable c) as [kc|] eqn:Hc; [|done]. simpl.
      case_bool_decide as Hin; [|done]. simpl. rewrite Hc. simpl.
      by rewrite bool_decide_true.
    + rewrite (kept_availability fm valid), Hv, kept_availability.
      by destruct (filters !! "availability") as [[]|].
    + rewrite (kept_min_popularity fm valid), Hv, kept_min_popularity.
      destruct (filters !! "min_popularity") as [w|]; [|done]. simpl.
      by destruct (int w).
  - destruct (kept fm valid k) eqn:E1.
    { destruct Hk. apply (kept_cases fm valid). congruence. }
    destruct (kept fm filters k) eqn:E2; [|done].
    destruct Hk. apply (kept_cases fm filters). congruence.
Qed.

(** What [int] makes of some values: white space around the digits and
    single underscores between them are accepted; one of the separators
    U+001C..U+001F, a sign alone, a fraction and a string of more than
    4300 digits are refused with [ValueError], [None] and a list with
    [TypeError]. *)
Example int_conversions :
  int (VStr " 12 ") = inr 12
  ∧ int (VStr "-1_000") = inr (-1000)
  ∧ int (VBool true) = inr 1
  ∧ int (VStr (String (ascii_of_N 28) "5")) = inl ValueError
  ∧ int (VStr "+") = inl ValueError
  ∧ int (VStr "1.5") = inl ValueError
  ∧ int (VStr (string_of_list_ascii (repeat "1"%char 4301))) = inl ValueError
  ∧ is_Some (int_of_str (string_of_list_ascii (repeat "1"%char 4300)))
  ∧ int VNone = inl TypeError
  ∧ int (VList ["5"]) = inl TypeError
  ∧ validate_filters init {["min_popularity" := VStr (String (ascii_of_N 28) "5")]}
    = Some ∅.
Proof. split_and!; try (vm_compute; reflexivity). vm_compute. by eexists. Qed.



(** X11. Validation is idempotent: validating a map that
    [validate_filters] returned returns it unchanged. *)
Theorem validate_filters_idempotent (fm : t) (filters valid : gmap string value) :
  validate_filters fm filters = Some valid → validate_filters fm valid = Some valid.
Proof.
  intros H. pose proof (validate_filters_lookup _ _ _ H) as Hv.
  destruct (validate_filters_returns fm valid) as [valid' H'].
  - intros c Hc. rewrite Hv in Hc. by eapply kept_hashable.
  - intros c Hc. rewrite Hv in Hc. by eapply kept_hashable.
  - rewrite H'. f_equal. apply map_eq. intros k.
    rewrite (validate_filters_lookup _ _ _ H' k), Hv. by apply kept_kept.
Qed.

Lemma validate_filters_idempotent_witness :
  validate_filters init {["availability" := VBool true; "min_popularity" := VInt 3]}
  = Some {["availability" := VBool true; "min_popularity" := VInt 3]}.
Proof.
  apply (validate_filters_idempotent init
           {["availability" := VBool true; "min_popularity" := VStr " 3 ";
             "category" := VStr "Chess"; "day" := VStr "Monday"]}).
  vm_compute. reflexivity.
Defined.

(** X12. A validated filter map never makes the engine's filter raise
    on records whose popularity, where present, is a number:
    [_apply_filters] returns the records that pass every criterion of
    the map. *)
Theorem validated_filters_apply
    (fm : t) (filters valid : gmap string value) (acts : list SearchEngine.activity) :
  validate_filters fm filters = Some valid →
  Forall (λ a, is_Some (as_int (get_or a "popularity" (VInt 0)))) acts →
  SearchEngine.apply_filters acts valid = Some (List.filter (matches valid) acts).
Proof.
  intros Hv Hacts. apply apply_filters_eq. intros a Ha.
  rewrite Forall_forall in Hacts. destruct (Hacts a Ha) as [p Hp].
  unfold popular_enough.
  rewrite (validate_filters_lookup _ _ _ Hv), kept_min_popularity.
  destruct (filters !! "min_popularity") as [w|]; simpl; [|by eexists].
  destruct (int w) as [?|z]; [by eexists|].
  unfold ge. destruct (get_or a "popularity" (VInt 0)); simplify_eq/=; by eexists.
Qed.

Lemma validated_filters_apply_witness :
  SearchEngine.apply_filters Samples.sample_catalogue {["min_popularity" := VInt 5]}
  = Some (List.filter (matches {["min_popularity" := VInt 5]}) Samples.sample_catalogue).
Proof.
  apply (validated_filters_apply init
           {["min_popularity" := VStr "5"; "availability" := VStr "yes"]}).
  - vm_compute. reflexivity.
  - repeat constructor; by eexists.
Defined.

Lemma update_one_Some fm a fm' :
  update_one fm a = (fm', Some ()) →
  (∀ k, k ∈ available_categories fm' ↔
        k ∈ available_categories fm
        ∨ ∃ c, a !! "category" = Some c ∧ hashable c = Some k)
  ∧ (∀ k, k ∈ available_schedules fm' ↔
          k ∈ available_schedules fm
          ∨ ∃ s, a !! "schedule" = Some s ∧ hashable s = Some k)
  ∧ (∀ c, a !! "category" = Some c → is_Some (hashable c))
  ∧ (∀ s, a !! "schedule" = Some s → is_Some (hashable s)).
Proof.
  unfold update_one.
  destruct (a !! "category") as [c|]; [destruct (hashable c) as [kc|] eqn:Hc; [|done]|];
    (destruct (a !! "schedule") as [s|];
       [destruct (hashable s) as [ks|] eqn:Hs; [|done]|]);
    intros [= <-]; simpl; split_and!; try (intros k); try set_solver;
    try (intros ? [= <-]; by eexists).
Qed.

Lemma update_available_filters_Some fm acts fm' :
  update_available_filters fm acts = (fm', Some ()) →
  (∀ k, k ∈ available_categories fm' ↔
        k ∈ available_categories fm
        ∨ ∃ a c, a ∈ acts ∧ a !! "category" = Some c ∧ hashable c = Some k)
  ∧ (∀ k, k ∈ available_schedules fm' ↔
          k ∈ available_schedules fm
          ∨ ∃ a s, a ∈ acts ∧ a !! "schedule" = Some s ∧ hashable s = Some k)
  ∧ (∀ a c, a ∈ acts → a !! "category" = Some c → is_Some (hashable c))
  ∧ (∀ a s, a ∈ acts → a !! "schedule" = Some s → is_Some (hashable s)).
Proof.
  revert fm. induction acts as [|a acts IH]; intros fm; simpl.
  - intros [= <-]. split_and!; try (intros k); set_solver.
  - destruct (update_one fm a) as [fm1 [[]|]] eqn:E1; [|done].
    intros (Hc & Hs & Hhc & Hhs)%IH.
    apply update_one_Some in E1 as (Hc1 & Hs1 & Hhc1 & Hhs1).
    split_and!.
    + intros k. rewrite Hc, Hc1. split.
      * intros [[H|(c & H1 & H2)]|(b & c & Hb & H1 & H2)].
        -- by left.
        -- right. exists a, c. split_and!; [left|done..].
        -- right. exists b, c. split_and!; [by right|done..].
      * intros [H|(b & c & [->|Hb]%elem_of_cons & H1 & H2)].
        -- left. by left.
        -- left. right. eauto.
        -- right. eauto.
    + intros k. rewrite Hs, Hs1. split.
      * intros [[H|(c & H1 & H2)]|(b & c & Hb & H1 & H2)].
        -- by left.
        -- right. exists a, c. split_and!; [left|done..].
        -- right. exists b, c. split_and!; [by right|done..].
      * intros [H|(b & c & [->|Hb]%elem_of_cons & H1 & H2)].
        -- left. by left.
        -- left. right. eauto.
        -- right. eauto.
    + intros b c [->|Hb]%elem_of_cons; [apply Hhc1|by apply Hhc].
    + intros b c [->|Hb]%elem_of_cons; [apply Hhs1|by apply Hhs].
Qed.

Lemma validate_single_category fm c k :
  hashable c = Some k → k ∈ available_categories fm →
  validate_filters fm {["category" := c]} = Some {["category" := c]}.
Proof.
  intros Hk Hin. unfold validate_filters, in_set.
  rewrite lookup_singleton_eq. simpl. rewrite Hk. simpl.
  rewrite bool_decide_true by done.
  rewrite !lookup_singleton_ne by done. simpl. by rewrite insert_empty.
Qed.

Lemma validate_single_schedule fm s k :
  hashable s = Some k → k ∈ available_schedules fm →
  validate_filters fm {["schedule" := s]} = Some {["schedule" := s]}.
Proof.
  intros Hk Hin. unfold validate_filters, in_set.
  rewrite lookup_singleton_ne by done. simpl.
  rewrite lookup_singleton_eq. simpl. rewrite Hk. simpl.
  rewrite bool_decide_true by done.
  rewrite !lookup_singleton_ne by done. simpl. by rewrite insert_empty.
Qed.

(** X13. After a call of [update_available_filters] that returns, the
    manager knows what it knew before and, besides, exactly the
    categories and schedules of the given activities; a filter on the
    category or on the schedule of any of these activities is then kept
    by [validate_filters]. *)
Theorem registered_values_validate
    (fm fm' : t) (acts : list (gmap string value)) :
  update_available_filters fm acts = (fm', Some ()) →
  (∀ k, k ∈ available_categories fm' ↔
        k ∈ available_categories fm
        ∨ ∃ a c, a ∈ acts ∧ a !! "category" = Some c ∧ hashable c = Some k)
  ∧ (∀ k, k ∈ available_schedules fm' ↔
          k ∈ available_schedules fm
          ∨ ∃ a s, a ∈ acts ∧ a !! "schedule" = Some s ∧ hashable s = Some k)
  ∧ (∀ a c, a ∈ acts → a !! "category" = Some c →
       validate_filters fm' {["category" := c]} = Some {["category" := c]})
  ∧ (∀ a s, a ∈ acts → a !! "schedule" = Some s →
       validate_filters fm' {["schedule" := s]} = Some {["schedule" := s]}).
Proof.
  intros (Hc & Hs & Hhc & Hhs)%update_available_filters_Some.
  split_and!; [done..| |].
  - intros a c Ha Hac. destruct (Hhc a c Ha Hac) as [k Hk].
    apply (validate_single_category fm' c k Hk). apply Hc. right. eauto.
  - intros a s Ha Has. destruct (Hhs a s Ha Has) as [k Hk].
    apply (validate_single_schedule fm' s k Hk). apply Hs. right. eauto.
Qed.

Lemma registered_values_validate_witness :
  validate_filters (update_available_filters init Samples.sample_catalogue).1
    {["category" := VStr "Arts"]}
  = Some {["category" := VStr "Arts"]}.
Proof.
  destruct (registered_values_validate init
              (update_available_filters init Samples.sample_catalogue).1
              Samples.sample_catalogue) as (_ & _ & H & _).
  - rewrite (surjective_pairing (update_available_filters init Samples.sample_catalogue))
      at 1.
    f_equal.
  - apply (H Samples.art_club); [right; right; left|reflexivity].
Defined.

End ValidationMoreFacts.

(** ** Categories and suggestions of the HTTP application *)

Module AppQueryFacts.
Import Py App AppSpec AppQueries SearchSpec StringFacts SortFacts AppFacts.

Lemma category_set_spec (acts : odict Activity) (s0 : gset string) c :
  c ∈ foldl (λ categories x,
               match category x.2 with
               | Some c => {[c]} ∪ categories
               | None => categories
               end) s0 acts
  ↔ c ∈ s0 ∨ ∃ x, x ∈ acts ∧ category x.2 = Some c.
Proof.
  revert s0. induction acts as [|x acts IH]; intros s0; simpl.
  - split; [by left|]. intros [?|(x & Hx & _)]; [done|by apply elem_of_nil in Hx].
  - rewrite IH. split.
    + intros [H|(y & Hy & Hc)].
      * destruct (category x.2) as [c'|] eqn:E; [|by left].
        apply elem_of_union in H as [->%elem_of_singleton|H]; [|by left].
        right. exists x. split; [left|done].
      * right. exists y. split; [by right|done].
    + intros [H|(y & [->|Hy]%elem_of_cons & Hc)].
      * left. destruct (category x.2); set_solver.
      * left. rewrite Hc. set_solver.
      * right. by exists y.
Qed.

Lemma StronglySorted_strict (l : list string) :
  NoDup l → StronglySorted (λ a b, str_ltb b a = false) l →
  StronglySorted (λ a b, str_ltb a b = true) l.
Proof.
  intros Hnd Hs. induction Hs as [|a l Hs IH Ha]; [constructor|].
  apply NoDup_cons in Hnd as [Hna Hnd]. constructor; [by apply IH|].
  apply Forall_forall. intros b Hb. rewrite Forall_forall in Ha.
  destruct (str_ltb a b) eqn:E; [done|].
  destruct Hna. by rewrite (str_ltb_tie a b E (Ha b Hb)).
Qed.

Lemma sorted_strings_unique (l1 l2 : list string) :
  l1 ≡ₚ l2 →
  sorted_by str_ltb (λ c, c) false l1 = sorted_by str_ltb (λ c, c) false l2.
Proof.
  intros Hp.
  destruct (sorted_by_spec str_ltb str_ltb_asym str_ltb_negtrans str_ltb_tie
              (λ c : string, c) false l1) as (Hp1 & Hs1 & _).
  destruct (sorted_by_spec str_ltb str_ltb_asym str_ltb_negtrans str_ltb_tie
              (λ c : string, c) false l2) as (Hp2 & Hs2 & _).
  eapply (StronglySorted_unique_strong (λ a b : string, str_ltb b a = false)).
  - intros a b _ _ H1 H2. by apply str_ltb_tie.
  - exact Hs1.
  - exact Hs2.
  - by rewrite Hp1, Hp2.
Qed.

(** X14. [get_categories] returns the categories of the database in
    strictly ascending order, so each of them once; a string is in the
    list exactly when it is the category of some activity. The list does
    not depend on the order in which the set of categories is
    enumerated. *)
Theorem get_categories_sorted (acts : odict Activity) :
  StronglySorted (λ a b, str_ltb a b = true) (get_categories acts)
  ∧ (∀ c, c ∈ get_categories acts ↔ ∃ x, x ∈ acts ∧ category x.2 = Some c)
  ∧ ∀ enumeration, enumeration ≡ₚ elements (category_set acts) →
      sorted_by str_ltb (λ c, c) false enumeration = get_categories acts.
Proof.
  unfold get_categories.
  destruct (sorted_by_spec str_ltb str_ltb_asym str_ltb_negtrans str_ltb_tie
              (λ c : string, c) false (elements (category_set acts))) as (Hp & Hs & _).
  split_and!.
  - apply StronglySorted_strict; [|done]. rewrite Hp. apply NoDup_elements.
  - intros c. rewrite Hp, elem_of_elements. unfold category_set.
    rewrite category_set_spec. set_solver.
  - intros l Hl. by apply sorted_strings_unique.
Qed.

Lemma keyword_steps_spec (query_lower : string) (words acc : list string)
    (sugg : list suggestion) :
  let p w := contains query_lower w && (3 <? str_len w) in
  foldl (keyword_step query_lower)
        (sugg ++ (keyword_suggestion <$> acc), list_to_set acc) words
  = (sugg ++ (keyword_suggestion
                <$> acc ++ filter (λ w, w ∉ acc)
                             (distinct (filter (λ w, p w = true) words))),
     list_to_set (acc ++ filter (λ w, w ∉ acc)
                           (distinct (filter (λ w, p w = true) words)))).
Proof.
  intros p. revert acc. induction words as [|w words IH]; intros acc.
  - simpl. by rewrite app_nil_r.
  - cbn [foldl]. unfold keyword_step at 2. cbn [fst snd]. fold (p w).
    destruct (p w) eqn:Ep.
    + rewrite (filter_cons_True (λ w, p w = true)) by done. cbn [distinct].
      destruct (decide (w ∈ acc)) as [Hin|Hnin].
      * rewrite bool_decide_true by set_solver. cbn [negb andb].
        rewrite IH. rewrite filter_cons_False by naive_solver.
        rewrite list_filter_filter.
        assert (filter (λ x, (x ∉ acc) ∧ (x ≠ w))
                  (distinct (filter (λ w0, p w0 = true) words))
                = filter (λ x, x ∉ acc)
                    (distinct (filter (λ w0, p w0 = true) words))) as ->.
        { apply list_filter_iff. intros x. split; [naive_solver|].
          intros Hx. split; [done|]. by intros ->. }
        done.
      * rewrite bool_decide_false by set_solver. cbn [negb andb].
        assert ((sugg ++ (keyword_suggestion <$> acc)) ++ [keyword_suggestion w]
                = sugg ++ (keyword_suggestion <$> acc ++ [w])) as ->.
        { by rewrite fmap_app, app_assoc. }
        assert ({[w]} ∪ list_to_set acc = list_to_set (C:=gset string) (acc ++ [w]))
          as -> by set_solver.
        rewrite IH. rewrite filter_cons_True by done.
        rewrite list_filter_filter.
        assert (filter (λ x, (x ∉ acc) ∧ (x ≠ w))
                  (distinct (filter (λ w0, p w0 = true) words))
                = filter (λ x, x ∉ acc ++ [w])
                    (distinct (filter (λ w0, p w0 = true) words))) as ->.
        { apply list_filter_iff. intros x. set_solver. }
        by rewrite <- !app_assoc.
    + rewrite (filter_cons_False (λ w, p w = true)) by congruence.
      cbn [andb]. apply IH.
Qed.

Lemma keyword_loops_flat (query_lower : string) (acts : odict Activity) st :
  foldl (λ st x, foldl (keyword_step query_lower) st (split (lower (description x.2))))
        st acts
  = foldl (keyword_step query_lower) st (description_words acts).
Proof.
  revert st. induction acts as [|x acts IH]; intros st; [done|].
  unfold description_words. cbn [foldl mbind list_bind]. rewrite foldl_app. apply IH.
Qed.

Lemma filter_not_in_nil (l : list string) : filter (λ w, w ∉ []) l = l.
Proof.
  induction l as [|x l IH]; [done|].
  rewrite filter_cons_True by apply not_elem_of_nil. by rewrite IH.
Qed.

(** X15. [get_search_suggestions] echoes the query and returns at most
    ten suggestions: the first ten of, first, one suggestion of type
    "activity" for every name of the database that contains the query
    (case-insensitively), in database order, its text the name; then one
    suggestion of type "keyword" for every keyword, its text the
    capitalized keyword. The keywords are the words of the lower-cased
    descriptions that contain the lower-cased query and are longer than
    three characters, each word once, in the order of their first
    occurrence. The words are distinct; their capitalized texts need not
    be. *)
Theorem suggestions_names_then_keywords (acts : odict Activity) (q : string) :
  let names :=
    List.filter (λ n, contains (lower q) (lower n)) (okeys acts) in
  let keywords :=
    distinct (filter (λ w, contains (lower q) w && (3 <? str_len w) = true)
                (description_words acts)) in
  get_search_suggestions acts q
  = (q, take 10 (((λ n, mk_suggestion (codes n) "activity") <$> names)
                 ++ ((λ w, mk_suggestion (capitalize w) "keyword") <$> keywords)))
  ∧ NoDup keywords
  ∧ (length (get_search_suggestions acts q).2 ≤ 10)%nat.
Proof.
  intros names keywords.
  change (λ n, mk_suggestion (codes n) "activity") with activity_suggestion.
  change (λ w, mk_suggestion (capitalize w) "keyword") with keyword_suggestion.
  assert (get_search_suggestions acts q
          = (q, take 10 ((activity_suggestion <$> names)
                         ++ (keyword_suggestion <$> keywords)))) as Heq.
  { unfold get_search_suggestions. rewrite keyword_loops_flat.
    pose proof (keyword_steps_spec (lower q) (description_words acts) []
                  (activity_suggestion <$> names)) as H.
    cbn zeta in H. rewrite filter_not_in_nil in H.
    change (keyword_suggestion <$> []) with (@nil suggestion) in H.
    rewrite app_nil_r in H.
    change (list_to_set (C:=gset string) []) with (∅ : gset string) in H.
    cbn zeta. fold names. rewrite H. done. }
  split_and!; [done|apply RecentFacts.NoDup_distinct|].
  rewrite Heq. simpl. rewrite length_take. lia.
Qed.

(** On the database of the source the partial query "che" suggests the
    Chess Club and the keywords "Chess" and "Matches". *)
Example suggestions_for_che :
  get_search_suggestions activities "che"
  = ("che", [mk_suggestion (codes "Chess Club") "activity";
             mk_suggestion (codes "Chess") "keyword";
             mk_suggestion (codes "Matches") "keyword"]).
Proof. vm_compute. reflexivity. Qed.

(** Two keywords can have the same text: the sharp s is capitalized to
    "Ss", so the words U+00DF "abc" and "ssabc" both give "Ssabc". *)
Example suggestions_same_text :
  get_search_suggestions
    [("Club", mkActivity (String sharp_s "abc ssabc") "" 1 [] None)] "ABC"
  = ("ABC", [mk_suggestion (codes "Ssabc") "keyword";
             mk_suggestion (codes "Ssabc") "keyword"]).
Proof. vm_compute. reflexivity. Qed.

Lemma NoDup_okeys_filter {V} (p : string * V → bool) (d : odict V) :
  NoDup (okeys d) → NoDup (okeys (List.filter p d)).
Proof.
  unfold okeys. intros H. eapply sublist_NoDup; [exact H|].
  apply fmap_sublist. apply SearchFacts.filter_sublist.
Qed.

(** The final value of [include], criterion by criterion. A criterion
    given as the empty string is not active. *)
Lemma include_iff q category available day activity_name activity_data :
  include q category available day activity_name activity_data = true
  ↔ (∀ s, q = Some s → s ≠ EmptyString →
       contains (lower s) (lower activity_name) = true
       ∨ contains (lower s) (lower (description activity_data)) = true)
    ∧ (∀ c, category = Some c → c ≠ EmptyString →
         lower (default EmptyString (App.category activity_data)) = lower c)
    ∧ (∀ b, available = Some b →
         b = (len (participants activity_data) <? max_participants activity_data))
    ∧ (∀ d, day = Some d → d ≠ EmptyString →
         contains (lower d) (lower (schedule activity_data)) = true).
Proof.
  assert (∀ o s, nonempty o = Some s ↔ o = Some s ∧ s ≠ EmptyString) as Hne.
  { intros [t|] s; simpl; [|naive_solver].
    case_bool_decide; naive_solver. }
  split.
  - intros (Hq & Hc & Ha & Hd)%include_criteria. split_and!.
    + intros s -> Hs. apply orb_true_iff, Hq, Hne. done.
    + intros c -> Hs. apply Hc, Hne. done.
    + done.
    + intros d -> Hs. apply Hd, Hne. done.
  - intros (Hq & Hc & Ha & Hd). unfold include.
    assert (match nonempty q with
            | Some q0 =>
                if negb (contains (lower q0) (lower activity_name))
                   && negb (contains (lower q0) (lower (description activity_data)))
                then false else true
            | None => true
            end = true) as ->.
    { destruct (nonempty q) as [s|] eqn:Es; [|done].
      apply Hne in Es as [-> Hs]. by destruct (Hq s eq_refl Hs) as [->| ->];
        rewrite ?andb_false_r. }
    assert (match nonempty category with
            | Some c =>
                if bool_decide
                     (lower (default EmptyString (App.category activity_data)) ≠ lower c)
                then false else true
            | None => true
            end = true) as ->.
    { destruct (nonempty category) as [c|] eqn:Ec; [|done].
      apply Hne in Ec as [-> Hs]. rewrite bool_decide_false; [done|].
      intros Hn. by apply Hn, Hc. }
    assert (match available with
            | Some available0 =>
                if negb (Bool.eqb available0
                           (len (participants activity_data)
                            <? max_participants activity_data))
                then false else true
            | None => true
            end = true) as ->.
    { destruct available as [b|]; [|done]. rewrite (Ha b eq_refl).
      by rewrite Bool.eqb_reflx. }
    destruct (nonempty day) as [d|] eqn:Ed; [|done].
    apply Hne in Ed as [-> Hs]. by rewrite (Hd d eq_refl Hs).
Qed.

(** X16. [search_activities] answers with exactly the entries of the
    database that pass every active criterion: a query that is in the
    lower-cased name or description, an equal lower-cased category, an
    availability that equals "fewer participants than
    [max_participants]", a day that is in the lower-cased schedule; a
    query, category or day given as the empty string is not active.
    [total] is the number of results and distinct names stay distinct. A
    request that leaves [sort_by] out is answered under the default key
    [SortBy.name]: with no criterion it lists the whole database in
    ascending order of the lower-cased names, on the database of the
    source from "Art Club" to "Soccer Team". Only a call with [sort_by]
    set to [None] leaves the database order. *)
Theorem search_activities_exact
    (acts : odict Activity) (q category : option string) (available : option bool)
    (sort_by : option SortBy.t) (day : option string) :
  let r := search_activities acts q category available sort_by day in
  let served := results (search_activities acts None None None default_sort_by None) in
  (∀ x, x ∈ results r ↔
     x ∈ acts
     ∧ (∀ s, q = Some s → s ≠ EmptyString →
          contains (lower s) (lower x.1) = true
          ∨ contains (lower s) (lower (description x.2)) = true)
     ∧ (∀ c, category = Some c → c ≠ EmptyString →
          lower (default EmptyString (App.category x.2)) = lower c)
     ∧ (∀ b, available = Some b →
          b = (len (participants x.2) <? max_participants x.2))
     ∧ (∀ d, day = Some d → d ≠ EmptyString →
          contains (lower d) (lower (schedule x.2)) = true))
  ∧ total r = len (results r)
  ∧ (NoDup (okeys acts) → NoDup (okeys (results r)))
  ∧ served ≡ₚ acts
  ∧ StronglySorted (λ x y, str_ltb (lower y.1) (lower x.1) = false) served
  ∧ (∀ n, List.filter (λ x, bool_decide (lower x.1 = n)) served
          = List.filter (λ x, bool_decide (lower x.1 = n)) acts)
  ∧ okeys (results (search_activities activities None None None default_sort_by None))
    = ["Art Club"; "Basketball Team"; "Chess Club"; "Debate Team"; "Drama Club";
       "GitHub Skills"; "Gym Class"; "Math Club"; "Programming Class"; "Soccer Team"]
  ∧ results (search_activities acts None None None None None) = acts.
Proof.
  intros r served. subst r served. unfold search_activities, default_sort_by.
  cbn [results total].
  pose proof (sorted_by_spec str_ltb str_ltb_asym str_ltb_negtrans str_ltb_tie
                (λ x : string * Activity, lower x.1) false acts) as (Hp & Hn & Hnt).
  assert (List.filter (λ x : string * Activity, include None None None None x.1 x.2) acts
          = acts) as Hall by apply SearchFacts.filter_true.
  split_and!.
  - intros x. rewrite sort_results_perm, list_elem_of_In, List.filter_In.
    rewrite <- list_elem_of_In. by rewrite include_iff.
  - done.
  - intros Hnd. unfold okeys. rewrite sort_results_perm.
    by apply NoDup_okeys_filter.
  - rewrite Hall. exact Hp.
  - rewrite Hall. exact Hn.
  - rewrite Hall. exact Hnt.
  - vm_compute. reflexivity.
  - simpl. exact Hall.
Qed.

End AppQueryFacts.

(** ** More on the engine: sort by popularity, suggestions after a search *)

Module EngineMoreFacts.
Import Py SearchEngine EngineSpec StringFacts SortFacts RecentFacts SuggestionFacts.

Lemma lt_numbers (a b : value) m n :
  as_int a = Some m → as_int b = Some n → lt a b = Some (m <? n).
Proof.
  intros Ha Hb. destruct a, b; simpl in *; try done; by simplify_eq.
Qed.

Lemma same_kind_numbers (ks : list value) :
  Forall (λ k, is_Some (as_int k)) ks → same_kind ks = true.
Proof.
  intros H. unfold same_kind.
  assert (forallb (λ k, bool_decide (is_Some (as_int k))) ks = true) as ->; [|done].
  apply forallb_forall. intros k Hk%list_elem_of_In.
  rewrite Forall_forall in H. apply bool_decide_eq_true. by apply H.
Qed.

Lemma same_kind_mixed (ks : list value) (a : value) (s : string) :
  a ∈ ks → is_Some (as_int a) → VStr s ∈ ks → same_kind ks = false.
Proof.
  intros Ha [m Hm] Hs. unfold same_kind.
  assert (∀ p : value → bool, ∀ x, x ∈ ks → p x = false → forallb p ks = false) as Hf.
  { intros p x Hx Hp. destruct (forallb p ks) eqn:E; [|done].
    rewrite forallb_forall in E. rewrite E in Hp; [done|]. by apply list_elem_of_In. }
  rewrite (Hf _ (VStr s)), (Hf _ a), (Hf _ a); try done.
  - by destruct a.
  - by destruct a.
Qed.

Lemma decorate_Some {A} (key : A → value) (l : list A) :
  decorate (λ x, Some (key x)) l = Some ((λ x, (key x, x)) <$> l).
Proof.
  induction l as [|a l IH]; [done|].
  unfold decorate in *. cbn [mapM]. rewrite IH. done.
Qed.

Lemma StronglySorted_mono_elem {A} (R R' : relation A) (l : list A) :
  (∀ a b, a ∈ l → b ∈ l → R a b → R' a b) → StronglySorted R l → StronglySorted R' l.
Proof.
  intros HR Hs. induction Hs as [|a l Hs IH Ha]; constructor.
  - apply IH. intros x y Hx Hy. apply HR; by right.
  - rewrite Forall_forall in Ha |- *. intros b Hb.
    apply HR; [left|by right|by apply Ha].
Qed.

(** X17. [sort_activities] under ["popularity"], on records whose
    popularity (0 when the record has none) is a number: it returns the
    records in descending order of popularity, records of equal
    popularity in their order in the argument. *)
Theorem sort_activities_by_popularity (acts : list activity) :
  Forall (λ a, is_Some (popularity_of a)) acts →
  ∃ res, sort_activities acts "popularity" = Some res
    ∧ res ≡ₚ acts
    ∧ StronglySorted
        (λ a b, ∃ m n, popularity_of a = Some m ∧ popularity_of b = Some n ∧ n ≤ m) res
    ∧ ∀ n, List.filter (λ a, bool_decide (popularity_of a = Some n)) res
           = List.filter (λ a, bool_decide (popularity_of a = Some n)) acts.
Proof.
  intros Hnum.
  set (key := λ x : activity, Some (get_or x "popularity" (VInt 0))).
  assert (sort_activities acts "popularity" = sorted value_ltb key true acts) as ->.
  { unfold sort_activities. rewrite decide_False by done. rewrite decide_True by done.
    unfold sorted_values, sorted, key.
    rewrite decorate_Some. simpl.
    rewrite same_kind_numbers; [by rewrite orb_true_r|].
    rewrite <- list_fmap_compose. apply Forall_fmap.
    eapply Forall_impl; [exact Hnum|]. done. }
  destruct (sorted_total value_ltb key true acts) as [res Hres].
  { apply Forall_forall. intros a _. by eexists. }
  exists res. split; [done|].
  apply (sorted_spec value_ltb (λ k, is_Some (as_int k))) in Hres
    as (Hp & Hs & Ht).
  - split_and!; [done| |].
    + eapply StronglySorted_mono_elem; [|exact Hs].
      intros a b Ha Hb (ka & kb & Hka & Hkb & Hlt).
      unfold key in Hka, Hkb. simplify_eq.
      rewrite <- Hp in Hnum. rewrite Forall_forall in Hnum.
      destruct (Hnum a Ha) as [m Hm], (Hnum b Hb) as [n Hn].
      exists m, n. split_and!; [done..|].
      unfold value_ltb in Hlt. unfold popularity_of in Hm, Hn.
      rewrite (lt_numbers _ _ _ _ Hm Hn) in Hlt. simpl in Hlt. lia.
    + intros n.
      assert (∀ l : list activity, Forall (λ a, is_Some (popularity_of a)) l →
                List.filter (λ a, bool_decide (popularity_of a = Some n)) l
                = List.filter (tied_with value_ltb key (VInt n)) l) as Hfl.
      { intros l Hl. induction Hl as [|a l [m Hm] Hl IH]; [done|].
        cbn [List.filter]. rewrite IH.
        assert (bool_decide (popularity_of a = Some n)
                = tied_with value_ltb key (VInt n) a) as ->; [|done].
        unfold tied_with, key, value_ltb. unfold popularity_of in *.
        rewrite (lt_numbers _ (VInt n) m n Hm eq_refl).
        rewrite (lt_numbers (VInt n) _ n m eq_refl Hm). simpl. rewrite Hm.
        case_bool_decide as E; simplify_eq.
        - by rewrite Z.ltb_irrefl.
        - destruct (Z.ltb_spec m n), (Z.ltb_spec n m); simpl; try done.
          exfalso. apply E. f_equal. lia. }
      rewrite !Hfl; [|done|by rewrite Hp]. by apply Ht.
  - intros a b [m Hm] [n Hn]. unfold value_ltb.
    rewrite (lt_numbers _ _ _ _ Hm Hn), (lt_numbers _ _ _ _ Hn Hm). simpl. lia.
  - intros a b c [m Hm] [n Hn] [o Ho]. unfold value_ltb.
    rewrite (lt_numbers _ _ _ _ Hm Hn), (lt_numbers _ _ _ _ Hn Ho),
      (lt_numbers _ _ _ _ Hm Ho). simpl. lia.
  - intros a k Ha Hk. unfold key in Hk. simplify_eq.
    rewrite Forall_forall in Hnum. by apply Hnum.
Qed.

Lemma sort_activities_by_popularity_witness :
  ∃ res, sort_activities [Samples.chess_club; Samples.art_club] "popularity" = Some res
         ∧ length res = 2%nat.
Proof.
  destruct (sort_activities_by_popularity [Samples.chess_club; Samples.art_club])
    as (res & Hres & Hp & _).
  - repeat (apply Forall_cons; split; [eexists; vm_compute; reflexivity|]).
    apply Forall_nil_2.
  - exists res. split; [done|]. by rewrite Hp.
Defined.

(** X18. [sort_activities] under ["popularity"] raises when one record
    has a number for its popularity, or none, and another has a string:
    [sorted] compares the two kinds with [<]. *)
Theorem sort_activities_mixed_popularity (acts : list activity) (a b : activity) (s : string) :
  a ∈ acts → b ∈ acts →
  is_Some (popularity_of a) → b !! "popularity" = Some (VStr s) →
  sort_activities acts "popularity" = None.
Proof.
  intros Ha Hb Hnum Hs.
  unfold sort_activities. rewrite decide_False by done. rewrite decide_True by done.
  unfold sorted_values. rewrite decorate_Some. simpl.
  rewrite length_fmap.
  assert (a ≠ b) as Hne.
  { intros ->. destruct Hnum as [m Hm]. unfold popularity_of, get_or in Hm.
    rewrite Hs in Hm. done. }
  assert ((length acts <=? 1)%nat = false) as ->.
  { apply Nat.leb_gt. destruct acts as [|x [|y acts]]; simpl; [|exfalso|lia].
    - by apply elem_of_nil in Ha.
    - apply list_elem_of_singleton in Ha, Hb. congruence. }
  rewrite (same_kind_mixed _ (get_or a "popularity" (VInt 0)) s); [done| |done|].
  - rewrite <- list_fmap_compose. apply list_elem_of_fmap. by exists a.
  - rewrite <- list_fmap_compose. apply list_elem_of_fmap. exists b. split; [|done].
    simpl. unfold get_or. by rewrite Hs.
Qed.

Lemma sort_activities_mixed_popularity_witness :
  sort_activities
    [Samples.chess_club; <["popularity" := VStr "high"]> Samples.art_club] "popularity"
  = None.
Proof.
  apply (sort_activities_mixed_popularity _ Samples.chess_club
           (<["popularity" := VStr "high"]> Samples.art_club) "high").
  - left.
  - right. left.
  - eexists. vm_compute. reflexivity.
  - apply lookup_insert_eq.
Defined.

Lemma str_ltb_irrefl (s : string) : str_ltb s s = false.
Proof. destruct (str_ltb s s) eqn:E; [|done]. by rewrite (str_ltb_asym _ _ E) in E. Qed.

(** X19. [sort_activities] under its default key ["alphabetical"], on
    records whose name (the empty string when the record has none) is a
    string: it returns the records in ascending order of the lower-cased
    name, records with the same lower-cased name in their order in the
    argument. *)
Theorem sort_activities_by_name (acts : list activity) :
  Forall (λ a, is_Some (name_key a)) acts →
  ∃ res, sort_activities acts "alphabetical" = Some res
    ∧ res ≡ₚ acts
    ∧ StronglySorted
        (λ a b, ∃ na nb, name_key a = Some na ∧ name_key b = Some nb
                         ∧ str_ltb nb na = false) res
    ∧ ∀ n, List.filter (λ a, bool_decide (name_key a = Some n)) res
           = List.filter (λ a, bool_decide (name_key a = Some n)) acts.
Proof.
  intros Hstr.
  assert (sort_activities acts "alphabetical" = sorted str_ltb name_key false acts) as ->.
  { unfold sort_activities. by rewrite decide_True. }
  destruct (sorted_total str_ltb name_key false acts Hstr) as [res Hres].
  exists res. split; [done|].
  apply (sorted_spec str_ltb (λ _, True)) in Hres as (Hp & Hs & Ht);
    [|auto using str_ltb_asym|intros a b c _ _ _; apply str_ltb_negtrans|done].
  split_and!; [done|exact Hs|]. intros n.
  assert (∀ l : list activity,
            List.filter (λ a, bool_decide (name_key a = Some n)) l
            = List.filter (tied_with str_ltb name_key n) l) as Hfl.
  { intros l. apply List.filter_ext. intros a. unfold tied_with.
    destruct (name_key a) as [na|]; [|done].
    case_bool_decide as E; simplify_eq.
    - by rewrite str_ltb_irrefl.
    - destruct (str_ltb na n) eqn:E1, (str_ltb n na) eqn:E2; try done.
      exfalso. apply E. f_equal. by apply str_ltb_tie. }
  rewrite !Hfl. by apply Ht.
Qed.

Lemma sort_activities_by_name_witness :
  ∃ res, sort_activities [Samples.chess_club; Samples.art_club] "alphabetical" = Some res
         ∧ length res = 2%nat.
Proof.
  destruct (sort_activities_by_name [Samples.chess_club; Samples.art_club])
    as (res & Hres & Hp & _).
  - repeat (apply Forall_cons; split; [eexists; vm_compute; reflexivity|]).
    apply Forall_nil_2.
  - exists res. split; [done|]. by rewrite Hp.
Defined.

Lemma decorate_None {A K} (key : A → option K) (l : list A) (a : A) :
  a ∈ l → key a = None → decorate key l = None.
Proof.
  intros Ha Hk. destruct (decorate key l) as [d|] eqn:E; [|done].
  apply decorate_spec in E as [<- Hd].
  apply list_elem_of_fmap in Ha as (x & -> & Hx).
  rewrite Forall_forall in Hd. rewrite (Hd x Hx) in Hk. done.
Qed.

(** X20. [sort_activities] under ["alphabetical"] raises when the name
    of some record is not a string (it has no [lower]), be the record
    the only one. *)
Theorem sort_activities_name_not_string (acts : list activity) (a : activity) :
  a ∈ acts → name_key a = None → sort_activities acts "alphabetical" = None.
Proof.
  intros Ha Hk. unfold sort_activities. rewrite decide_True by done.
  unfold sorted. fold name_key. by rewrite (decorate_None _ _ a).
Qed.

Lemma sort_activities_name_not_string_witness :
  sort_activities [<["name" := VInt 7]> Samples.chess_club] "alphabetical" = None.
Proof.
  apply (sort_activities_name_not_string _ (<["name" := VInt 7]> Samples.chess_club)).
  - left.
  - unfold name_key, get_or. by rewrite lookup_insert_eq.
Defined.

Lemma startswith_refl (s : string) : startswith s s = true.
Proof. induction s as [|c s IH]; [done|]. simpl. by rewrite decide_True. Qed.

Lemma startswith_empty (s : string) : startswith s EmptyString = true.
Proof. by destruct s. Qed.

Lemma contains_refl (s : string) : contains s s = true.
Proof. destruct s; simpl; [done|]. by rewrite decide_True, startswith_refl. Qed.

Lemma contains_empty (s : string) : contains EmptyString s = true.
Proof. destruct s; simpl; [done|]. done. Qed.

Lemma contains_startswith (p s : string) : startswith s p = true → contains p s = true.
Proof. intros H. destruct s; simpl in *; by rewrite H. Qed.

(** The loop over the indexed words only appends. *)
Lemma suggestions_fold_head (partial_lower : string) (x : string) (l words : list string) :
  head (foldl (λ sugg word,
                 if startswith word partial_lower && negb (bool_decide (word ∈ sugg))
                 then sugg ++ [word] else sugg)
              (x :: l) words) = Some x.
Proof.
  revert l. induction words as [|w words IH]; intros l; [done|].
  cbn [foldl]. destruct (_ && _); [apply (IH (l ++ [w]))|apply IH].
Qed.

(** X21. A search with a query that is not blank makes the query the
    first suggestion for every partial query it contains, whatever the
    case of the letters and whether or not the search raised; so it is
    the first suggestion for itself, and for the empty partial query. *)
Theorem searched_query_is_suggested
    (e : t) (q p : string) (filters : option (gmap string value)) :
  blank q = false →
  (contains (lower p) (lower q) = true →
     head (get_suggestions (search e q filters).1 p) = Some q)
  ∧ head (get_suggestions (search e q filters).1 q) = Some q
  ∧ head (get_suggestions (search e q filters).1 EmptyString) = Some q.
Proof.
  intros Hq.
  assert (∀ p, contains (lower p) (lower q) = true →
               head (get_suggestions (search e q filters).1 p) = Some q) as H.
  { clear p. intros p Hp. unfold get_suggestions.
    rewrite search_recent, Hq. cbn [take].
    case_bool_decide; [done|].
    cbn [List.filter]. rewrite Hp. cbn zeta.
    match goal with
    | |- head (take 5 ?l) = _ =>
        assert (head l = Some q) as Hl by apply suggestions_fold_head;
        destruct l; [done|]; simpl in *; done
    end. }
  split_and!; [apply H|apply H, contains_refl|apply H, contains_empty].
Qed.

Lemma searched_query_is_suggested_witness :
  head (get_suggestions (search Samples.sample_engine "Art Club" None).1 "CLUB")
  = Some "Art Club".
Proof.
  apply (proj1 (searched_query_is_suggested Samples.sample_engine "Art Club" "CLUB" None
                  eq_refl)).
  reflexivity.
Defined.

Lemma NoDup_filter_list {A} (p : A → bool) (l : list A) : NoDup l → NoDup (List.filter p l).
Proof. intros H. eapply sublist_NoDup; [exact H|]. apply SearchFacts.filter_sublist. Qed.

(** X22. When the recent searches are distinct and the index has every
    word once, [get_suggestions] returns no suggestion twice, and every
    suggestion is a recent search that contains the partial query, case
    ignored, or a word of the index that starts with the lower-cased
    partial query. *)
Theorem suggestions_distinct_matches (e : t) (p : string) :
  NoDup (recent_searches e) → NoDup (okeys (search_index e)) →
  NoDup (get_suggestions e p)
  ∧ ∀ s, s ∈ get_suggestions e p →
      (s ∈ recent_searches e ∧ contains (lower p) (lower s) = true)
      ∨ (s ∈ okeys (search_index e) ∧ startswith s (lower p) = true
         ∧ contains (lower p) s = true).
Proof.
  intros Hr Hi. unfold get_suggestions. case_bool_decide as Hp.
  - subst p. split.
    + eapply sublist_NoDup; [exact Hr|apply sublist_take].
    + intros s Hs. left. split; [|apply contains_empty].
      by apply elem_of_take_elem_of in Hs.
  - cbn zeta.
    pose proof (suggestions_fold (lower p)
      (List.filter (λ s, contains (lower p) (lower s)) (recent_searches e))
      [] (okeys (search_index e)) Hi) as H.
    rewrite app_nil_r in H. rewrite H by (intros w _; apply not_elem_of_nil).
    clear H. cbn [app]. split.
    + eapply sublist_NoDup; [|apply sublist_take].
      apply NoDup_app. split_and!; [by apply NoDup_filter_list| |by apply NoDup_filter_list].
      intros s Hs Hs'.
      apply list_elem_of_In, List.filter_In in Hs' as [_ Hs'].
      apply andb_true_iff in Hs' as [_ Hs'].
      apply negb_true_iff, bool_decide_eq_false in Hs'. done.
    + intros s Hs.
      apply elem_of_take_elem_of in Hs.
      apply elem_of_app in Hs as [Hs|Hs];
        apply list_elem_of_In, List.filter_In in Hs as [Hin Hs];
        apply list_elem_of_In in Hin.
      * by left.
      * right. apply andb_true_iff in Hs as [Hs _].
        split_and!; [done..|by apply contains_startswith].
Qed.

Lemma suggestions_distinct_matches_witness :
  NoDup (get_suggestions
           (SearchSpec.run_searches Samples.sample_engine
              [("Chess", None); ("art club", None)]) "C").
Proof.
  apply (suggestions_distinct_matches
           (SearchSpec.run_searches Samples.sample_engine
              [("Chess", None); ("art club", None)]) "C").
  - apply (bool_decide_unpack _). vm_compute. exact I.
  - apply (bool_decide_unpack _). vm_compute. exact I.
Defined.

End EngineMoreFacts.
